(** * UptimeFlare: the issue-template updater ([scripts/update-template.js])

    A shallow embedding of the extraction-and-patch pipeline: the Monitor
    Extractor ([extractMonitorIds]), the Template Patcher
    ([updateIssueTemplate]) and the driver ([main]).

    JavaScript strings are sequences of UTF-16 code units, and the script's
    regular expressions carry no [u] flag, so they match code unit by code
    unit.  A text is therefore a list of code units ([N]).  The library
    operations the script calls ([String.prototype.indexOf], [matchAll],
    [replace] with a replacement pattern, [Array.prototype.join]) follow
    ECMA-262. *)

From Stdlib Require Import String Ascii NArith ZArith Lia Bool List Sorted.
Import ListNotations.

Set Implicit Arguments.

(** ** Texts *)

Abbreviation char := N.
Abbreviation str := (list char).

(** A source-code string literal, as the code units it denotes. *)
Definition js (s : string) : str := map N_of_ascii (list_ascii_of_string s).

Definition LF : char := 10%N.
Definition SP : char := 32%N.
Definition DOLLAR : char := 36%N.
Definition LBRACKET : char := 91%N.
Definition RBRACKET : char := 93%N.

(** [starts_with pat s]: [pat] is a prefix of [s]. *)
Fixpoint starts_with (pat s : str) : bool :=
  match pat, s with
  | [], _ => true
  | p :: pat', c :: s' => N.eqb p c && starts_with pat' s'
  | _ :: _, [] => false
  end.

(** ** Regular expressions (the fragment the script uses)

    Matching is the backtracking search of ECMA-262: [rmatch r s] lists, in
    the order the backtracking matcher tries them, every way [r] matches a
    prefix of [s]: the number of code units consumed and the capture groups
    set on the way.  The first element is the match the engine reports. *)

Module Regex.

Inductive regex : Type :=
| Eps : regex
| Chr : char -> regex                     (* a literal code unit *)
| Cls : (char -> bool) -> regex           (* a character class *)
| Seq : regex -> regex -> regex
| Alt : regex -> regex -> regex           (* r1|r2, r1 tried first *)
| Star : bool -> (char -> bool) -> regex  (* class*, greedy (true) or lazy *)
| Group : nat -> regex -> regex.          (* the n-th capture group *)

Abbreviation captures := (list (nat * str)).

(** [Star]: the lengths a quantified class can take, in backtracking order. *)
Fixpoint star_lengths (greedy : bool) (p : char -> bool) (s : str) : list nat :=
  match s with
  | c :: s' =>
      if p c then
        if greedy then map S (star_lengths greedy p s') ++ [0]
        else 0 :: map S (star_lengths greedy p s')
      else [0]
  | [] => [0]
  end.

Fixpoint rmatch (r : regex) (s : str) : list (nat * captures) :=
  match r with
  | Eps => [(0, [])]
  | Chr c => match s with
             | x :: _ => if N.eqb x c then [(1, [])] else []
             | [] => []
             end
  | Cls p => match s with
             | x :: _ => if p x then [(1, [])] else []
             | [] => []
             end
  | Seq r1 r2 =>
      flat_map (fun m1 =>
                  map (fun m2 => (fst m1 + fst m2, snd m1 ++ snd m2))
                      (rmatch r2 (skipn (fst m1) s)))
               (rmatch r1 s)
  | Alt r1 r2 => rmatch r1 s ++ rmatch r2 s
  | Star greedy p => map (fun n => (n, [])) (star_lengths greedy p s)
  | Group k r1 =>
      map (fun m => (fst m, (k, firstn (fst m) s) :: snd m)) (rmatch r1 s)
  end.

(** A literal string inside a pattern. *)
Fixpoint Lit (l : str) : regex :=
  match l with
  | [] => Eps
  | c :: l' => Seq (Chr c) (Lit l')
  end.

(** One or more of a class: [class+]. *)
Definition Plus (p : char -> bool) : regex := Seq (Cls p) (Star true p).

(** The match object of [RegExp.prototype.exec]. *)
Record rmatch_result : Type := MkMatch {
  index : nat;            (* match.index *)
  matched : str;          (* match[0] *)
  groups : captures       (* match[1], match[2], ... *)
}.

(** [match[k]]; a group that did not take part reads as the empty text
    (none of the script's groups is optional). *)
Fixpoint group (k : nat) (c : captures) : str :=
  match c with
  | [] => []
  | (j, v) :: c' => if Nat.eqb j k then v else group k c'
  end.

(** [exec] without the [g] flag: the leftmost start at which the pattern
    matches, [i] being the offset of [s] in the whole text. *)
Fixpoint search (r : regex) (s : str) (i : nat) : option rmatch_result :=
  match rmatch r s with
  | (n, caps) :: _ => Some (MkMatch i (firstn n s) caps)
  | [] => match s with
          | [] => None
          | _ :: s' => search r s' (S i)
          end
  end.

(** [matchAll] with the [g] flag: successive matches, each search resuming
    at the end of the previous match (one code unit further after an empty
    match).  [skip] counts the code units still covered by the last match. *)
Fixpoint matchAll_from (r : regex) (s : str) (i skip : nat) : list rmatch_result :=
  match skip with
  | S k => match s with
           | [] => []
           | _ :: s' => matchAll_from r s' (S i) k
           end
  | 0 => match rmatch r s with
         | (n, caps) :: _ =>
             MkMatch i (firstn n s) caps ::
             match s with
             | [] => []
             | _ :: s' => matchAll_from r s' (S i) (pred n)
             end
         | [] => match s with
                 | [] => []
                 | _ :: s' => matchAll_from r s' (S i) 0
                 end
         end
  end.

Definition matchAll (r : regex) (s : str) : list rmatch_result :=
  matchAll_from r s 0 0.

(** *** Character classes *)

Local Open Scope N_scope.

Definition in_range (lo hi c : char) : bool := N.leb lo c && N.leb c hi.

(** [\s]: WhiteSpace and LineTerminator code points. *)
Definition cls_space (c : char) : bool :=
  in_range 9 13 c || N.eqb c 32 || N.eqb c 160 || N.eqb c 5760
  || in_range 8192 8202 c || N.eqb c 8232 || N.eqb c 8233 || N.eqb c 8239
  || N.eqb c 8287 || N.eqb c 12288 || N.eqb c 65279.

(** [[\s\S]]: any code unit. *)
Definition cls_any (c : char) : bool := cls_space c || negb (cls_space c).

(** The three quote characters: single quote, double quote and backtick. *)
Definition cls_quote (c : char) : bool :=
  N.eqb c 39 || N.eqb c 34 || N.eqb c 96.

Definition cls_not_quote (c : char) : bool := negb (cls_quote c).

End Regex.
Import Regex.

(** The number of capture groups of a pattern. *)
Fixpoint ngroups (r : regex) : nat :=
  match r with
  | Seq r1 r2 | Alt r1 r2 => ngroups r1 + ngroups r2
  | Group _ r1 => S (ngroups r1)
  | _ => 0
  end.

(** ** Library operations on strings *)

(** [String.prototype.indexOf]: the first offset at which [pat] occurs, or
    [-1]; [i] is the offset of [s] in the whole text. *)
Fixpoint indexOf_from (s pat : str) (i : Z) : Z :=
  if starts_with pat s then i
  else match s with
       | [] => (-1)%Z
       | _ :: s' => indexOf_from s' pat (i + 1)
       end.

Definition indexOf (s pat : str) : Z := indexOf_from s pat 0.

(** [Array.prototype.join]. *)
Fixpoint join (sep : str) (l : list str) : str :=
  match l with
  | [] => []
  | x :: l' => match l' with
               | [] => x
               | _ :: _ => x ++ sep ++ join sep l'
               end
  end.

Definition digit_val (c : char) : option nat :=
  if in_range 48%N 57%N c then Some (N.to_nat (c - 48)%N) else None.

(** [GetSubstitution] (ECMA-262): expands a replacement pattern.  [before]
    and [after] are the text on either side of the match, [m] the number of
    capture groups of the pattern; there are no named groups. *)
Fixpoint GetSubstitution (matched before after : str) (caps : captures)
    (m : nat) (tpl : str) : str :=
  match tpl with
  | [] => []
  | c :: t1 =>
      if N.eqb c DOLLAR then
        match t1 with
        | [] => [c]
        | c1 :: t2 =>
            if N.eqb c1 36%N (* $$ *) then
              DOLLAR :: GetSubstitution matched before after caps m t2
            else if N.eqb c1 96%N (* $` *) then
              before ++ GetSubstitution matched before after caps m t2
            else if N.eqb c1 38%N (* $& *) then
              matched ++ GetSubstitution matched before after caps m t2
            else if N.eqb c1 39%N (* $' *) then
              after ++ GetSubstitution matched before after caps m t2
            else
              match digit_val c1 with
              | Some d1 =>
                  let one_digit :=
                    if (1 <=? d1) && (d1 <=? m)
                    then group d1 caps ++ GetSubstitution matched before after caps m t2
                    else c :: c1 :: GetSubstitution matched before after caps m t2 in
                  match t2 with
                  | c2 :: t3 =>
                      match digit_val c2 with
                      | Some d2 =>
                          let idx := 10 * d1 + d2 in
                          if m <? idx then one_digit
                          else if 1 <=? idx
                          then group idx caps ++ GetSubstitution matched before after caps m t3
                          else c :: c1 :: c2 :: GetSubstitution matched before after caps m t3
                      | None => one_digit
                      end
                  | [] => one_digit
                  end
              | None => c :: GetSubstitution matched before after caps m t1
              end
        end
      else c :: GetSubstitution matched before after caps m t1
  end.

(** [String.prototype.replace] with a pattern without the [g] flag and a
    replacement string: only the first match is substituted; a text without
    a match is returned as it is. *)
Definition replace (r : regex) (tpl text : str) : str :=
  match search r text 0 with
  | None => text
  | Some mt =>
      let before := firstn (index mt) text in
      let after := skipn (index mt + length (matched mt)) text in
      before ++ GetSubstitution (matched mt) before after (groups mt) (ngroups r) tpl
             ++ after
  end.

(** ** The files the script works on *)

Inductive file : Type :=
| Absent
| Unreadable
| File (content : str).

(** [written] logs every content handed to [writeFileSync] for the
    template, most recent first. *)
Record fs : Type := MkFs {
  config_file : file;       (* uptime.config.ts *)
  template_file : file;     (* .github/ISSUE_TEMPLATE/maintenance.yml *)
  template_writable : bool;
  written : list str
}.

(** A call either returns or throws. *)
Inductive result (A : Type) : Type :=
| Ok (a : A)
| Throw.
Arguments Throw {A}.

Definition bind {A B : Type} (x : result A) (f : A -> result B) : result B :=
  match x with
  | Ok a => f a
  | Throw => Throw
  end.

Notation "x <- e ;; k" := (bind e (fun x => k))
  (at level 61, e at next level, right associativity).

(** [try { body } catch (error) { handler }] where the handler returns. *)
Definition try_catch {A : Type} (body : result A) (handler : A) : A :=
  match body with
  | Ok a => a
  | Throw => handler
  end.

Definition existsSync (f : file) : bool :=
  match f with
  | Absent => false
  | _ => true
  end.

Definition readFileSync (f : file) : result str :=
  match f with
  | File content => Ok content
  | _ => Throw
  end.

Definition writeFileSync (st : fs) (content : str) : result fs :=
  if template_writable st
  then Ok (MkFs (config_file st) (File content) true (content :: written st))
  else Throw.

(** ** The Monitor Extractor *)

Record monitor : Type := MkMonitor { id : str; name : str }.

(** [/id:\s*[Q]([^Q]+)[Q]/g], where [Q] stands for the three quote
    characters the source lists in its bracket expressions. *)
Definition idRegex : regex :=
  Seq (Lit (js "id:"))
      (Seq (Star true cls_space)
           (Seq (Cls cls_quote)
                (Seq (Group 1 (Plus cls_not_quote)) (Cls cls_quote)))).

(** [/name:\s*[Q]([^Q]+)[Q]/g], with the same [Q]. *)
Definition nameRegex : regex :=
  Seq (Lit (js "name:"))
      (Seq (Star true cls_space)
           (Seq (Cls cls_quote)
                (Seq (Group 1 (Plus cls_not_quote)) (Cls cls_quote)))).

Definition monitors_marker : str := js "monitors: [".

(** The loop that looks for the bracket closing the monitors array; [s] is
    the text from offset [i] on.  It returns [monitorsEndPos]. *)
Fixpoint find_closing (s : str) (i bracketCount : Z) : Z :=
  match s with
  | [] => (-1)%Z
  | c :: s' =>
      let bracketCount1 :=
        if N.eqb c LBRACKET then (bracketCount + 1)%Z else bracketCount in
      if N.eqb c RBRACKET then
        if (bracketCount1 =? 0)%Z then i
        else find_closing s' (i + 1)%Z (bracketCount1 - 1)%Z
      else find_closing s' (i + 1)%Z bracketCount1
  end.

Definition monitorsStartPos (configContent : str) : Z :=
  indexOf configContent monitors_marker.

Definition monitorsEndPos (configContent : str) : Z :=
  let startSearchPos :=
    (monitorsStartPos configContent + Z.of_nat (length monitors_marker))%Z in
  find_closing (skipn (Z.to_nat startSearchPos) configContent) startSearchPos 0.

(** The filter of both match lists: [match.index > start && match.index < end]. *)
Definition in_monitors (startPos endPos : Z) (mt : rmatch_result) : bool :=
  (Z.of_nat (index mt) >? startPos)%Z && (Z.of_nat (index mt) <? endPos)%Z.

Definition no_match : rmatch_result := MkMatch 0 [] [].

(** The pairing loop: for [i] from 0 below the smaller length, in order. *)
Definition pair_up (monitorIds monitorNames : list rmatch_result) : list monitor :=
  map (fun i => MkMonitor (group 1 (groups (nth i monitorIds no_match)))
                          (group 1 (groups (nth i monitorNames no_match))))
      (seq 0 (Nat.min (length monitorIds) (length monitorNames))).

(** The body of [extractMonitorIds] once the configuration is read. *)
Definition extract_from (configContent : str) : list monitor :=
  let idMatches := matchAll idRegex configContent in
  let nameMatches := matchAll nameRegex configContent in
  let startPos := monitorsStartPos configContent in
  let endPos := monitorsEndPos configContent in
  if (startPos =? -1)%Z || (endPos =? -1)%Z then []
  else
    let monitorIds := filter (in_monitors startPos endPos) idMatches in
    let monitorNames := filter (in_monitors startPos endPos) nameMatches in
    pair_up monitorIds monitorNames.

Definition extractMonitorIds_body (st : fs) : result (list monitor) :=
  configContent <- readFileSync (config_file st) ;;
  Ok (extract_from configContent).

Definition extractMonitorIds (st : fs) : list monitor :=
  try_catch (extractMonitorIds_body st) [].

(** ** The Template Patcher *)

(** One option record of the dropdown. *)
Definition render_option (mon : monitor) : str :=
  js "        - label: '" ++ id mon ++ js " - " ++ name mon ++ js "'" ++ [LF]
  ++ js "          value: '" ++ id mon ++ js "'".

Definition monitorOptions (monitors : list monitor) : str :=
  join [LF] (map render_option monitors).

Definition all_monitors_option : str :=
  js "        - label: 'All monitors'" ++ [LF] ++ js "          value: 'all'".

Definition allOptions (monitors : list monitor) : str :=
  monitorOptions monitors ++ [LF] ++ all_monitors_option.

(** [/(options:\s*\n)([\s\S]*?)(\n\n|\n  - type:)/] *)
Definition optionsRegex : regex :=
  Seq (Group 1 (Seq (Lit (js "options:")) (Seq (Star true cls_space) (Chr LF))))
      (Seq (Group 2 (Star false cls_any))
           (Group 3 (Alt (Lit [LF; LF]) (Lit (LF :: js "  - type:"))))).

Definition replacement (monitors : list monitor) : str :=
  js "$1" ++ allOptions monitors ++ js "$3".

(** The text transformation of the Patcher. *)
Definition patch (templateContent : str) (monitors : list monitor) : str :=
  replace optionsRegex (replacement monitors) templateContent.

Definition updateIssueTemplate (monitors : list monitor) (st : fs) : bool * fs :=
  if negb (existsSync (template_file st)) then (false, st)
  else
    try_catch
      (templateContent <- readFileSync (template_file st) ;;
       st' <- writeFileSync st (patch templateContent monitors) ;;
       Ok (true, st'))
      (false, st).

(** ** The pipeline: the exit status and the files it leaves *)

Definition main (st : fs) : Z * fs :=
  let monitors := extractMonitorIds st in
  if Nat.eqb (length monitors) 0 then (1%Z, st)
  else
    let (success, st') := updateIssueTemplate monitors st in
    if success then (0%Z, st') else (1%Z, st').

(** ** The configuration shipped with the repository ([uptime.config.ts]),
    line by line. *)

Definition uptime_config_lines : list str :=
  [ js "import { MaintenanceConfig, PageConfig, WorkerConfig } from './types/config'";
    js "import { maintenances as autoMaintenances } from './maintenances'";
    [];
    js "const pageConfig: PageConfig = {";
    js "  // Title for your status page";
    js "  title: " ++ [34%N] ++ js "lyc8503's Status Page" ++ [34%N] ++ js ",";
    js "  // Links shown at the header of your status page, could set `highlight` to `true`";
    js "  links: [";
    js "    { link: 'https://github.com/lyc8503', label: 'GitHub' },";
    js "    { link: 'https://blog.lyc8503.net/', label: 'Blog' },";
    js "    { link: 'mailto:me@lyc8503.net', label: 'Email Me', highlight: true },";
    js "  ],";
    js "  // [OPTIONAL] Group your monitors";
    js "  // If not specified, all monitors will be shown in a single list";
    js "  // If specified, monitors will be grouped and ordered, not-listed monitors will be invisble (but still monitored)";
    js "  group: {";
    js "    '" ++ [55356%N; 57104%N] ++ js " Public (example group name)': ['foo_monitor', 'bar_monitor', 'more monitor ids...'],";
    js "    '" ++ [55357%N; 56592%N] ++ js " Private': ['test_tcp_monitor'],";
    js "  },";
    js "  // [OPTIONAL] Set the path to your favicon, default to '/favicon.ico' if not specified";
    js "  favicon: '/favicon.ico',";
    js "  // [OPTIONAL] Maintenance related settings";
    js "  maintenances: {";
    js "    // [OPTIONAL] The color of upcoming maintenance alerts, default to 'gray'";
    js "    // Active alerts will always use the color specified in the MaintenanceConfig";
    js "    upcomingColor: 'gray',";
    js "  },";
    js "}";
    [];
    js "const workerConfig: WorkerConfig = {";
    js "  // Write KV at most every 3 minutes unless the status changed";
    js "  kvWriteCooldownMinutes: 3,";
    js "  // Enable HTTP Basic auth for status page & API by uncommenting the line below, format `<USERNAME>:<PASSWORD>`";
    js "  // passwordProtection: 'username:password',";
    js "  // Define all your monitors here";
    js "  monitors: [";
    js "    // Example HTTP Monitor";
    js "    {";
    js "      // `id` should be unique, history will be kept if the `id` remains constant";
    js "      id: 'foo_monitor',";
    js "      // `name` is used at status page and callback message";
    js "      name: 'My API Monitor',";
    js "      // `method` should be a valid HTTP Method";
    js "      method: 'POST',";
    js "      // `target` is a valid URL";
    js "      target: 'https://example.com',";
    js "      // [OPTIONAL] `tooltip` is ONLY used at status page to show a tooltip";
    js "      tooltip: 'This is a tooltip for this monitor',";
    js "      // [OPTIONAL] `statusPageLink` is ONLY used for clickable link at status page";
    js "      statusPageLink: 'https://example.com',";
    js "      // [OPTIONAL] `hideLatencyChart` will hide status page latency chart if set to true";
    js "      hideLatencyChart: false,";
    js "      // [OPTIONAL] `expectedCodes` is an array of acceptable HTTP response codes, if not specified, default to 2xx";
    js "      expectedCodes: [200],";
    js "      // [OPTIONAL] `timeout` in millisecond, if not specified, default to 10000";
    js "      timeout: 10000,";
    js "      // [OPTIONAL] headers to be sent";
    js "      headers: {";
    js "        'User-Agent': 'Uptimeflare',";
    js "        Authorization: 'Bearer YOUR_TOKEN_HERE',";
    js "      },";
    js "      // [OPTIONAL] body to be sent";
    js "      body: 'Hello, world!',";
    js "      // [OPTIONAL] if specified, the response must contains the keyword to be considered as operational.";
    js "      responseKeyword: 'success',";
    js "      // [OPTIONAL] if specified, the response must NOT contains the keyword to be considered as operational.";
    js "      responseForbiddenKeyword: 'bad gateway',";
    js "      // [OPTIONAL] if specified, will call the check proxy to check the monitor, mainly for geo-specific checks";
    js "      // refer to docs https://github.com/lyc8503/UptimeFlare/wiki/Check-proxy-setup before setting this value";
    js "      // currently supports `worker://` and `http(s)://` proxies";
    js "      checkProxy: 'https://xxx.example.com OR worker://weur',";
    js "      // [OPTIONAL] if true, the check will fallback to local if the specified proxy is down";
    js "      checkProxyFallback: true,";
    js "    },";
    js "    // Example TCP Monitor";
    js "    {";
    js "      id: 'test_tcp_monitor',";
    js "      name: 'Example TCP Monitor',";
    js "      // `method` should be `TCP_PING` for tcp monitors";
    js "      method: 'TCP_PING',";
    js "      // `target` should be `host:port` for tcp monitors";
    js "      target: '1.2.3.4:22',";
    js "      tooltip: 'My production server SSH',";
    js "      statusPageLink: 'https://example.com',";
    js "      timeout: 5000,";
    js "    },";
    js "  ],";
    js "  // [Optional] Notification settings";
    js "  notification: {";
    js "    // [Optional] Notification webhook settings, if not specified, no notification will be sent";
    js "    // More info at Wiki: https://github.com/lyc8503/UptimeFlare/wiki/Setup-notification";
    js "    webhook: {";
    js "      // [Required] webhook URL (example: Telegram Bot API)";
    js "      url: 'https://api.telegram.org/bot123456:ABCDEF/sendMessage',";
    js "      // [Optional] HTTP method, default to 'GET' for payloadType=param, 'POST' otherwise";
    js "      method: 'POST',";
    js "      // [Optional] headers to be sent";
    js "      headers: {";
    js "        foo: 'bar',";
    js "      },";
    js "      // [Required] Specify how to encode the payload";
    js "      // Should be one of 'param', 'json' or 'x-www-form-urlencoded'";
    js "      // 'param': append url-encoded payload to URL search parameters";
    js "      // 'json': POST json payload as body, set content-type header to 'application/json'";
    js "      // 'x-www-form-urlencoded': POST url-encoded payload as body, set content-type header to 'x-www-form-urlencoded'";
    js "      payloadType: 'x-www-form-urlencoded',";
    js "      // [Required] payload to be sent";
    js "      // $MSG will be replaced with the human-readable notification message";
    js "      payload: {";
    js "        chat_id: 12345678,";
    js "        text: '$MSG',";
    js "      },";
    js "      // [Optional] timeout calling this webhook, in millisecond, default to 5000";
    js "      timeout: 10000,";
    js "    },";
    js "    // [Optional] timezone used in notification messages, default to " ++ [34%N] ++ js "Etc/GMT" ++ [34%N];
    js "    timeZone: 'Asia/Shanghai',";
    js "    // [Optional] grace period in minutes before sending a notification";
    js "    // notification will be sent only if the monitor is down for N continuous checks after the initial failure";
    js "    // if not specified, notification will be sent immediately";
    js "    gracePeriod: 5,";
    js "    // [Optional] disable notification for monitors with specified ids";
    js "    skipNotificationIds: ['foo_monitor', 'bar_monitor'],";
    js "  },";
    js "  callbacks: {";
    js "    onStatusChange: async (";
    js "      env: any,";
    js "      monitor: any,";
    js "      isUp: boolean,";
    js "      timeIncidentStart: number,";
    js "      timeNow: number,";
    js "      reason: string";
    js "    ) => {";
    js "      // This callback will be called when there's a status change for any monitor";
    js "      // Write any TypeScript code here";
    js "      // This will not follow the grace period settings and will be called immediately when the status changes";
    js "      // You need to handle the grace period manually if you want to implement it";
    js "    },";
    js "    onIncident: async (";
    js "      env: any,";
    js "      monitor: any,";
    js "      timeIncidentStart: number,";
    js "      timeNow: number,";
    js "      reason: string";
    js "    ) => {";
    js "      // This callback will be called EVERY 1 MINTUE if there's an on-going incident for any monitor";
    js "      // Write any TypeScript code here";
    js "    },";
    js "  },";
    js "}";
    [];
    js "// Maintenances are now automatically generated from GitHub Issues";
    js "// Issues with the 'maintenance' label will be converted to maintenance entries";
    js "// You can still add manual maintenances here if needed, they will be combined";
    js "const manualMaintenances: MaintenanceConfig[] = [";
    js "  // Add any manual maintenance entries here if needed";
    js "  // Example:";
    js "  // {";
    js "  //   monitors: ['foo_monitor'],";
    js "  //   title: 'Manual Maintenance',";
    js "  //   body: 'This is a manual maintenance entry',";
    js "  //   start: '2025-04-27T00:00:00+08:00',";
    js "  //   end: '2025-04-27T02:00:00+08:00',";
    js "  //   color: 'yellow',";
    js "  // },";
    js "]";
    [];
    js "// Combine auto-generated maintenances from GitHub Issues with manual ones";
    js "const maintenances: MaintenanceConfig[] = [...autoMaintenances, ...manualMaintenances]";
    [];
    js "// Don't forget this, otherwise compilation fails.";
    js "export { maintenances, pageConfig, workerConfig }" ].

Definition uptime_config : str := join [LF] uptime_config_lines.

(** ** Sample inputs *)

(** A configuration declaring one monitor. *)
Definition small_config : str := js "monitors: [ { id: 'a', name: 'b' } ]".

(** A template without an options list. *)
Definition plain_template : str := js "name: Maintenance".

(** A template with two dropdown fields, each with its options list. *)
Definition two_dropdowns : str :=
  js "body:" ++ [LF] ++
  js "  - type: dropdown" ++ [LF] ++
  js "    attributes:" ++ [LF] ++
  js "      options:" ++ [LF] ++
  js "        - old" ++ [LF] ++
  js "  - type: dropdown" ++ [LF] ++
  js "    attributes:" ++ [LF] ++
  js "      options:" ++ [LF] ++
  js "        - low" ++ [LF] ++
  js "        - high" ++ [LF] ++
  js "  - type: textarea" ++ [LF].

(** A template with two dropdown fields written at the left margin: no
    field starts with two spaces, and the only blank line comes after the
    second options list. *)
Definition flush_dropdowns : str :=
  js "body:" ++ [LF] ++
  js "- type: dropdown" ++ [LF] ++
  js "  attributes:" ++ [LF] ++
  js "    options:" ++ [LF] ++
  js "      - old" ++ [LF] ++
  js "- type: dropdown" ++ [LF] ++
  js "  attributes:" ++ [LF] ++
  js "    options:" ++ [LF] ++
  js "      - low" ++ [LF] ++
  js "      - high" ++ [LF] ++ [LF] ++
  js "- type: textarea" ++ [LF].

(** A configuration whose values open and close with different quotes. *)
Definition mixed_quotes : str :=
  js "monitors: [ { id: 'a" ++ [34%N] ++ js ", name: `b' } ]".

(** A template whose options list ends at a blank line. *)
Definition blank_line_template : str := js "options:" ++ [LF] ++ js "X" ++ [LF; LF].

(** * Specification vocabulary *)

(** ** A declarative reading of the patterns *)

(** [Matches r s n c]: [r] matches the first [n] code units of [s], setting
    the capture groups [c]. *)
Inductive Matches : regex -> str -> nat -> captures -> Prop :=
| M_Eps s : Matches Eps s 0 []
| M_Chr c s : Matches (Chr c) (c :: s) 1 []
| M_Cls (p : char -> bool) c s : p c = true -> Matches (Cls p) (c :: s) 1 []
| M_Seq r1 r2 s n1 c1 n2 c2 :
    Matches r1 s n1 c1 -> Matches r2 (skipn n1 s) n2 c2 ->
    Matches (Seq r1 r2) s (n1 + n2) (c1 ++ c2)
| M_AltL r1 r2 s n c : Matches r1 s n c -> Matches (Alt r1 r2) s n c
| M_AltR r1 r2 s n c : Matches r2 s n c -> Matches (Alt r1 r2) s n c
| M_Star0 g (p : char -> bool) s : Matches (Star g p) s 0 []
| M_StarS g (p : char -> bool) c s n :
    p c = true -> Matches (Star g p) s n [] -> Matches (Star g p) (c :: s) (S n) []
| M_Group k r s n c :
    Matches r s n c -> Matches (Group k r) s n ((k, firstn n s) :: c).

(** ** Brackets *)

(** Occurrences of a code unit in a text. *)
Definition count (c : char) (s : str) : Z := Z.of_nat (count_occ N.eq_dec s c).

(** [closes_at s k]: offset [k] of [s] holds a closing bracket and the
    brackets before it are in balance. *)
Definition closes_at (s : str) (k : nat) : Prop :=
  nth_error s k = Some RBRACKET /\
  count LBRACKET (firstn k s) = count RBRACKET (firstn k s).

(** Texts whose brackets are properly nested. *)
Inductive nested : str -> Prop :=
| nested_nil : nested []
| nested_char c s : c <> LBRACKET -> c <> RBRACKET -> nested s -> nested (c :: s)
| nested_array a s : nested a -> nested s -> nested (LBRACKET :: a ++ RBRACKET :: s).

(** ** Pairing *)

(** The entry made of an id-match and a name-match. *)
Definition entry_of (p : rmatch_result * rmatch_result) : monitor :=
  MkMonitor (group 1 (groups (fst p))) (group 1 (groups (snd p))).

(** ** The options region *)

(** The two ways the options pattern can end: a blank line, or the start of
    the next field. *)
Definition terminator (g : str) : Prop := g = [LF; LF] \/ g = LF :: js "  - type:".

(** The end of the options pattern: its third group. *)
Definition options_end : regex :=
  Group 3 (Alt (Lit [LF; LF]) (Lit (LF :: js "  - type:"))).

(** ** Rendered blocks *)

(** Texts in which every line feed is followed by three spaces. *)
Inductive indented : str -> Prop :=
| indented_nil : indented []
| indented_char c s : c <> LF -> indented s -> indented (c :: s)
| indented_LF s : indented s -> indented (LF :: SP :: SP :: SP :: s).

(** Texts without a line feed, without a dollar sign. *)
Definition no_LF (s : str) : bool := forallb (fun c => negb (N.eqb c LF)) s.
Definition no_DOLLAR (s : str) : bool := forallb (fun c => negb (N.eqb c DOLLAR)) s.

(** Monitors whose id and name hold neither a line feed nor a dollar sign. *)
Definition tame_monitor (mon : monitor) : bool :=
  no_LF (id mon) && no_LF (name mon) && no_DOLLAR (id mon) && no_DOLLAR (name mon).

(** ** Field patterns *)

(** The pattern of a quoted field: the key, optional white space, a quote,
    one or more code units that are no quote (group 1), a quote. *)
Definition fieldRegex (key : str) : regex :=
  Seq (Lit key)
      (Seq (Star true cls_space)
           (Seq (Cls cls_quote)
                (Seq (Group 1 (Plus cls_not_quote)) (Cls cls_quote)))).

(** ** Replacement patterns *)

(** A code unit that continues no [$] pattern. *)
Definition plain (b : char) : Prop :=
  N.eqb b 36%N = false /\ N.eqb b 96%N = false /\ N.eqb b 38%N = false /\
  N.eqb b 39%N = false /\ digit_val b = None.

(** [occurs_at r t q]: the pattern [r] matches the text [t] at offset [q]. *)
Definition occurs_at (r : regex) (t : str) (q : nat) : Prop :=
  rmatch r (skipn q t) <> [].

(** [ends_with g t]: the text [t] ends with [g]. *)
Definition ends_with (g t : str) : Prop := exists X, t = X ++ g.

(** ** Declared configurations *)

(** A monitor record as a configuration declares it, with an inline array. *)
Definition declare (mon : monitor) : str :=
  js "{ id: '" ++ id mon ++ js "', name: '" ++ name mon
  ++ js "', expectedCodes: [200] }, ".

(** A configuration whose monitors array declares [mons], after [pre] and
    before [rest]. *)
Definition config_of (pre : str) (mons : list monitor) (rest : str) : str :=
  pre ++ monitors_marker ++ concat (map declare mons) ++ RBRACKET :: rest.

(** The colon and the single quote. *)
Definition COLON : char := 58%N.
Definition QUOTE : char := 39%N.

(** Code units that are no quote, no colon and no bracket. *)
Definition simple_char (c : char) : bool :=
  negb (cls_quote c) && negb (N.eqb c COLON)
  && negb (N.eqb c LBRACKET) && negb (N.eqb c RBRACKET).

(** A value is simple when it is not empty and all its code units are. *)
Definition simple (v : str) : bool :=
  match v with
  | [] => false
  | _ :: _ => forallb simple_char v
  end.

(** Monitors with a simple id and a simple name. *)
Definition simple_monitor (mon : monitor) : bool := simple (id mon) && simple (name mon).

(** Text before the array: no quote and no opening bracket. *)
Definition quiet (pre : str) : bool :=
  forallb (fun c => negb (cls_quote c) && negb (N.eqb c LBRACKET)) pre.

(** Texts without a colon. *)
Definition no_colon (s : str) : bool := forallb (fun c => negb (N.eqb c COLON)) s.

(** [key_free key a b]: in [a ++ b] the text [key] starts at no offset of
    [a]. *)
Definition key_free (key a b : str) : Prop :=
  forall j, j < length a -> starts_with key (skipn j (a ++ b)) = false.

(** The id field and the name field of a declared record. *)
Definition id_field (mon : monitor) : str := js "id:" ++ SP :: QUOTE :: id mon ++ [QUOTE].

Definition name_field (mon : monitor) : str := js "name:" ++ SP :: QUOTE :: name mon ++ [QUOTE].

(** The value a field match has captured. *)
Definition captured (m : rmatch_result) : str := group 1 (groups m).

(** ** Order and quoting *)

(** [follows a b]: the match [b] starts after the start of [a] and at or
    after its end. *)
Definition follows (a b : rmatch_result) : Prop :=
  index a < index b /\ index a + length (matched a) <= index b.

(** A text without a quote character. *)
Definition no_quote (s : str) : bool := forallb cls_not_quote s.

(** * Properties *)

(** ** Texts and literals *)

Lemma starts_with_app (pat s : str) :
  starts_with pat s = true <-> exists rest, s = pat ++ rest.
Proof.
  revert s; induction pat as [|p pat IH]; intros s; simpl.
  - split; [intros _; now exists s | reflexivity].
  - destruct s as [|c s]; [split; [discriminate | intros [rest H]; discriminate]|].
    rewrite andb_true_iff, N.eqb_eq, IH. split.
    + intros [-> [rest ->]]. now exists rest.
    + intros [rest H]. injection H as -> ->. split; [reflexivity | now exists rest].
Qed.

Lemma skipn_app_length (A : Type) (a b : list A) : skipn (length a) (a ++ b) = b.
Proof. induction a; simpl; auto. Qed.

Lemma firstn_app_length (A : Type) (a b : list A) : firstn (length a) (a ++ b) = a.
Proof. induction a; simpl; congruence. Qed.

Lemma firstn_skipn_length (A : Type) (n : nat) (l : list A) :
  firstn n l ++ skipn (length (firstn n l)) l = l.
Proof.
  revert l; induction n as [|n IH]; intros [|x l]; simpl; congruence.
Qed.

Lemma skipn_add (A : Type) (n m : nat) (l : list A) :
  skipn (n + m) l = skipn m (skipn n l).
Proof.
  revert l; induction n as [|n IH]; intros l; simpl; [reflexivity|].
  destruct l; [now rewrite skipn_nil | apply IH].
Qed.

(** A text that ends with [g] starts, read backwards, with [g] read
    backwards. *)
Lemma ends_with_rev (g t : str) :
  ends_with g t -> starts_with (rev g) (rev t) = true.
Proof.
  intros [X ->]. rewrite rev_app_distr. apply starts_with_app. now eexists.
Qed.

(** ** The matcher against a declarative reading of the patterns *)

Module RegexFacts.

#[local] Hint Constructors Matches : core.

Lemma star_lengths_Matches g p s n :
  In n (star_lengths g p s) <-> Matches (Star g p) s n [].
Proof.
  revert n; induction s as [|c s IH]; intros n; simpl.
  - split.
    + intros [<- | []]; auto.
    + intros H; inversion H; subst; auto.
  - destruct (p c) eqn:Hp.
    + assert (Hin : In n (0 :: map S (star_lengths g p s)) <-> Matches (Star g p) (c :: s) n []).
      { simpl. rewrite in_map_iff. split.
        - intros [<- | [k [<- Hk]]]; auto. apply M_StarS; [assumption | now apply IH].
        - intros H; inversion H; subst; auto.
          right. eexists; split; [reflexivity | now apply IH]. }
      destruct g; [|exact Hin].
      rewrite <- Hin, in_app_iff. simpl. tauto.
    + split.
      * intros [<- | []]; auto.
      * intros H; inversion H; subst; [now left | congruence].
Qed.

(** The matcher finds exactly the matches of the declarative reading. *)
Lemma rmatch_Matches r : forall s n c, In (n, c) (rmatch r s) <-> Matches r s n c.
Proof.
  induction r as [|a|p|r1 IH1 r2 IH2|r1 IH1 r2 IH2|g p|k r IH]; intros s n c; simpl.
  - split; [intros [H | []]; injection H as <- <-; auto | intros H; inversion H; auto].
  - destruct s as [|x s]; [split; [intros [] | intros H; inversion H]|].
    destruct (N.eqb_spec x a) as [-> | Hne].
    + split; [intros [H | []]; injection H as <- <-; auto | intros H; inversion H; simpl; auto].
    + split; [intros [] | intros H; inversion H; congruence].
  - destruct s as [|x s]; [split; [intros [] | intros H; inversion H]|].
    destruct (p x) eqn:Hp.
    + split; [intros [H | []]; injection H as <- <-; auto | intros H; inversion H; simpl; auto].
    + split; [intros [] | intros H; inversion H; congruence].
  - rewrite in_flat_map. split.
    + intros [[n1 c1] [H1 H2]]. rewrite in_map_iff in H2.
      destruct H2 as [[n2 c2] [E H2]]. simpl in *. injection E as <- <-.
      apply M_Seq; [now apply IH1 | now apply IH2].
    + intros H; inversion H; subst. exists (n1, c1). split; [now apply IH1|].
      rewrite in_map_iff. exists (n2, c2). split; [reflexivity | now apply IH2].
  - rewrite in_app_iff, IH1, IH2. split.
    + intros [H | H]; auto.
    + intros H; inversion H; auto.
  - rewrite in_map_iff. split.
    + intros [k [E H]]. injection E as <- <-. now apply star_lengths_Matches.
    + intros H. assert (c = []) by (inversion H; reflexivity). subst c.
      exists n. split; [reflexivity | now apply star_lengths_Matches].
  - rewrite in_map_iff. split.
    + intros [[n1 c1] [E H]]. simpl in E. injection E as <- <-.
      apply M_Group. now apply IH.
    + intros H; inversion H; subst. exists (n, c0). split; [reflexivity | now apply IH].
Qed.

Lemma Matches_length r s n c : Matches r s n c -> n <= length s.
Proof.
  induction 1; simpl in *; try lia.
  rewrite length_skipn in IHMatches2. lia.
Qed.

Lemma Matches_Lit l s n c :
  Matches (Lit l) s n c <-> n = length l /\ c = [] /\ exists rest, s = l ++ rest.
Proof.
  revert s n c; induction l as [|a l IH]; intros s n c; simpl.
  - split.
    + intros H; inversion H; subst. repeat split. now exists s.
    + intros (-> & -> & _). constructor.
  - split.
    + intros H; inversion H; subst.
      match goal with H1 : Matches (Chr _) _ _ _ |- _ => inversion H1; subst end.
      simpl in *.
      match goal with H2 : Matches (Lit _) _ _ _ |- _ => apply IH in H2;
        destruct H2 as (-> & -> & rest & ->) end.
      repeat split. now exists rest.
    + intros (-> & -> & rest & ->).
      change (S (length l)) with (1 + length l). change (@nil (nat * str)) with (@nil (nat * str) ++ []).
      apply M_Seq; [constructor|]. simpl. apply IH. repeat split. now exists rest.
Qed.

Lemma Matches_Star_all g (p : char -> bool) s n c :
  Matches (Star g p) s n c <-> c = [] /\ n <= length s /\ forallb p (firstn n s) = true.
Proof.
  split.
  - intros H. remember (Star g p) as r eqn:Er. revert Er.
    induction H; intros Er; try discriminate; injection Er as -> ->.
    + repeat split; simpl; lia.
    + destruct (IHMatches eq_refl) as (_ & Hn & Hall).
      repeat split; simpl; [lia|]. now rewrite H, Hall.
  - intros (-> & Hn & Hall). revert s Hn Hall; induction n as [|n IH]; intros s Hn Hall.
    + constructor.
    + destruct s as [|x s]; simpl in *; [lia|].
      apply andb_true_iff in Hall as [Hx Hall].
      apply M_StarS; [assumption | apply IH; [lia | assumption]].
Qed.

End RegexFacts.
Import RegexFacts.

(** ** Searching: [exec], [matchAll] *)

Section Search.

Variable r : regex.

Lemma search_spec s : forall i m,
  search r s i = Some m ->
  exists k n c,
    index m = i + k /\ k <= length s /\
    hd_error (rmatch r (skipn k s)) = Some (n, c) /\
    matched m = firstn n (skipn k s) /\ groups m = c /\
    forall j, j < k -> rmatch r (skipn j s) = [].
Proof.
  induction s as [|x s IH]; intros i m; simpl.
  - destruct (rmatch r []) as [|[n c] l] eqn:E; [discriminate|].
    intros H; injection H as <-. exists 0, n, c. simpl. rewrite E.
    repeat split; auto; try lia.
  - destruct (rmatch r (x :: s)) as [|[n c] l] eqn:E.
    + intros H. apply IH in H. destruct H as (k & n & c & Hi & Hk & Hh & Hm & Hg & Hj).
      exists (S k), n, c. simpl. repeat split; auto; try lia.
      intros [|j] Hlt; simpl; [assumption | apply Hj; lia].
    + intros H; injection H as <-. exists 0, n, c. simpl. rewrite E.
      repeat split; auto; try lia.
Qed.

Lemma search_intro s : forall i k n c,
  (forall j, j < k -> rmatch r (skipn j s) = []) ->
  k <= length s ->
  hd_error (rmatch r (skipn k s)) = Some (n, c) ->
  search r s i = Some (MkMatch (i + k) (firstn n (skipn k s)) c).
Proof.
  induction s as [|x s IH]; intros i k n c Hj Hk Hh.
  - simpl in Hk. assert (k = 0) by lia. subst k. simpl in *.
    destruct (rmatch r []) as [|[n' c'] l]; [discriminate|].
    injection Hh as -> ->. now rewrite Nat.add_0_r.
  - destruct k as [|k].
    + simpl in *. destruct (rmatch r (x :: s)) as [|[n' c'] l]; [discriminate|].
      injection Hh as -> ->. now rewrite Nat.add_0_r.
    + pose proof (Hj 0 ltac:(lia)) as H0. simpl in H0, Hk, Hh. simpl. rewrite H0.
      rewrite (IH (S i) k n c); [f_equal; f_equal; lia | | lia | assumption].
      intros j Hlt. apply (Hj (S j)). lia.
Qed.

Lemma search_None s : forall i,
  search r s i = None -> forall j, j <= length s -> rmatch r (skipn j s) = [].
Proof.
  induction s as [|x s IH]; intros i; simpl.
  - destruct (rmatch r []) as [|[n c] l] eqn:E; [|discriminate].
    intros _ j Hj. assert (j = 0) by lia. now subst j.
  - destruct (rmatch r (x :: s)) as [|[n c] l] eqn:E; [|discriminate].
    intros H [|j] Hj; simpl; [assumption|]. apply (IH _ H). lia.
Qed.

(** A match is a piece of the text, found where [index] says. *)
Lemma search_split s m :
  search r s 0 = Some m ->
  s = firstn (index m) s ++ matched m ++ skipn (index m + length (matched m)) s.
Proof.
  intros H. apply search_spec in H.
  destruct H as (k & n & c & Hi & Hk & Hh & Hm & _). simpl in Hi. subst k.
  rewrite Hm, skipn_add.
  rewrite <- (firstn_skipn (index m) s) at 1. f_equal.
  symmetry. apply firstn_skipn_length.
Qed.

(** Matches reported by [matchAll] start at or after the resumption point. *)
Lemma matchAll_from_index s : forall i k m,
  In m (matchAll_from r s i k) -> i + k <= index m.
Proof.
  induction s as [|x s IH]; intros i k m; simpl.
  - destruct k; [|intros []].
    destruct (rmatch r []) as [|[n c] l]; [intros [] | intros [<- | []]; simpl; lia].
  - destruct k as [|k].
    + destruct (rmatch r (x :: s)) as [|[n c] l].
      * intros H. apply IH in H. lia.
      * intros [<- | H]; [simpl; lia | apply IH in H; lia].
    + intros H. apply IH in H. lia.
Qed.

(** The first match of [matchAll] is the match of [exec]; the later ones
    start at or after its end. *)
Lemma matchAll_from_head s : forall i m rest,
  matchAll_from r s i 0 = m :: rest ->
  search r s i = Some m /\
  forall m', In m' rest -> index m + length (matched m) <= index m'.
Proof.
  induction s as [|x s IH]; intros i m rest; simpl.
  - destruct (rmatch r []) as [|[n c] l]; [discriminate|].
    intros H; injection H as <- <-. split; [reflexivity | intros m' []].
  - destruct (rmatch r (x :: s)) as [|[n c] l].
    + apply IH.
    + intros H; injection H as <- <-. split; [reflexivity|].
      intros m' Hin. apply matchAll_from_index in Hin. simpl.
      pose proof (firstn_le_length n (x :: s)) as Hl. simpl in Hl.
      destruct n; simpl in *; lia.
Qed.

(** Every match reported by [matchAll] is the first-priority match of the
    pattern at its [index]. *)
Lemma matchAll_from_sound s : forall i k m,
  In m (matchAll_from r s i k) ->
  exists j n c,
    index m = i + j /\ j <= length s /\
    hd_error (rmatch r (skipn j s)) = Some (n, c) /\
    matched m = firstn n (skipn j s) /\ groups m = c.
Proof.
  induction s as [|x s IH]; intros i k m; simpl.
  - destruct k; [|intros []].
    destruct (rmatch r []) as [|[n c] l] eqn:E; [intros []|].
    intros [<- | []]. exists 0, n, c. simpl. rewrite E. repeat split; auto.
  - assert (Hshift : forall k', In m (matchAll_from r s (S i) k') ->
      exists j n c, index m = i + j /\ j <= S (length s) /\
        hd_error (rmatch r (skipn j (x :: s))) = Some (n, c) /\
        matched m = firstn n (skipn j (x :: s)) /\ groups m = c).
    { intros k' H. apply IH in H. destruct H as (j & n & c & Hi & Hj & Hh & Hm & Hg).
      exists (S j), n, c. simpl. repeat split; auto; lia. }
    destruct k as [|k]; [|apply Hshift].
    destruct (rmatch r (x :: s)) as [|[n c] l] eqn:E; [apply Hshift|].
    intros [<- | H]; [|now apply Hshift in H].
    exists 0, n, c. simpl. rewrite E. repeat split; auto; lia.
Qed.

(** The first match of a global scan is the match [exec] finds. *)
Lemma search_matchAll_from s : forall i m,
  search r s i = Some m -> exists rest, matchAll_from r s i 0 = m :: rest.
Proof.
  induction s as [|x s IH]; intros i m; simpl.
  - destruct (rmatch r []) as [|[n c] l]; [discriminate|].
    intros H; injection H as <-. now eexists.
  - destruct (rmatch r (x :: s)) as [|[n c] l]; [apply IH|].
    intros H; injection H as <-. now eexists.
Qed.

(** Every match of a global scan is an occurrence of the pattern. *)
Lemma matchAll_occurs s m : In m (matchAll r s) -> occurs_at r s (index m).
Proof.
  intros H. apply matchAll_from_sound in H.
  destruct H as (j & n & c & Hi & _ & Hh & _). simpl in Hi. subst j.
  unfold occurs_at. intros E. rewrite E in Hh. discriminate.
Qed.

End Search.

(** ** The bracket scan *)

Lemma count_cons c x s :
  count c (x :: s) = ((if N.eqb x c then 1 else 0) + count c s)%Z.
Proof.
  unfold count. simpl. destruct (N.eq_dec x c) as [-> | Hne].
  - rewrite N.eqb_refl. lia.
  - apply N.eqb_neq in Hne. rewrite Hne. lia.
Qed.

(** A scan that stops has stopped on a closing bracket in balance. *)
Lemma find_closing_found s : forall i d,
  find_closing s i d <> (-1)%Z ->
  exists k, nth_error s k = Some RBRACKET /\
            (d + count LBRACKET (firstn k s) = count RBRACKET (firstn k s))%Z.
Proof.
  induction s as [|c s IH]; intros i d; simpl; [congruence|].
  destruct (N.eqb_spec c RBRACKET) as [-> | Hr].
  - change (N.eqb RBRACKET LBRACKET) with false. cbv iota.
    destruct (Z.eqb_spec d 0) as [-> | Hd].
    + intros _. exists 0. simpl. split; [reflexivity | unfold count; simpl; lia].
    + intros H. apply IH in H. destruct H as (k & Hk & Hc). exists (S k). simpl.
      split; [assumption|]. rewrite !count_cons.
      change (N.eqb RBRACKET LBRACKET) with false.
      change (N.eqb RBRACKET RBRACKET) with true. cbv iota. lia.
  - intros H. apply IH in H. destruct H as (k & Hk & Hc). exists (S k). simpl.
    split; [assumption|]. rewrite !count_cons.
    apply N.eqb_neq in Hr. rewrite Hr.
    destruct (N.eqb c LBRACKET); lia.
Qed.

(** Properly nested text is skipped at any depth. *)
Lemma find_closing_nested a : nested a -> forall s i d,
  (0 <= d)%Z ->
  find_closing (a ++ s) i d = find_closing s (i + Z.of_nat (length a)) d.
Proof.
  induction 1 as [|c a Hl Hr Ha IH|a b Ha IHa Hb IHb]; intros s i d Hd.
  - simpl. f_equal. lia.
  - simpl. apply N.eqb_neq in Hl, Hr. rewrite Hl, Hr, IH by assumption.
    f_equal. lia.
  - cbn [app find_closing]. change (N.eqb LBRACKET LBRACKET) with true.
    change (N.eqb LBRACKET RBRACKET) with false. cbv iota.
    rewrite <- app_assoc, IHa by lia. cbn [app find_closing].
    change (N.eqb RBRACKET LBRACKET) with false.
    change (N.eqb RBRACKET RBRACKET) with true. cbv iota.
    destruct (Z.eqb_spec (d + 1) 0) as [E | _]; [lia|].
    replace (d + 1 - 1)%Z with d by lia. rewrite IHb by assumption.
    f_equal. simpl length. rewrite length_app. simpl length. lia.
Qed.

(** Without an occurrence of the pattern, [indexOf] answers [-1]. *)
Lemma indexOf_from_absent s pat : forall i,
  (forall a b, s <> a ++ pat ++ b) -> indexOf_from s pat i = (-1)%Z.
Proof.
  induction s as [|c s IH]; intros i Hno; simpl.
  - destruct (starts_with pat []) eqn:E; [|reflexivity].
    apply starts_with_app in E. destruct E as [rest E]. now destruct (Hno [] rest).
  - destruct (starts_with pat (c :: s)) eqn:E.
    + apply starts_with_app in E. destruct E as [rest E]. now destruct (Hno [] rest).
    + apply IH. intros a b Hab. apply (Hno (c :: a) b). simpl. now f_equal.
Qed.

Lemma join_snoc (sep x : str) (l : list str) (y : str) :
  join sep ((x :: l) ++ [y]) = join sep (x :: l) ++ sep ++ y.
Proof.
  revert x; induction l as [|z l IH]; intros x; [reflexivity|].
  change (join sep ((x :: z :: l) ++ [y])) with (x ++ sep ++ join sep ((z :: l) ++ [y])).
  change (join sep (x :: z :: l)) with (x ++ sep ++ join sep (z :: l)).
  now rewrite IH, <- !app_assoc.
Qed.

(** ** Pairing *)

Lemma pair_up_combine (l1 l2 : list rmatch_result) :
  pair_up l1 l2 = map entry_of (combine l1 l2).
Proof.
  unfold pair_up. revert l2; induction l1 as [|a l1 IH]; intros [|b l2]; try reflexivity.
  simpl length. simpl Nat.min. rewrite <- cons_seq, <- seq_shift, map_cons, map_map.
  simpl combine. rewrite map_cons. f_equal. apply IH.
Qed.

(** With the region found, the entries are paired from the two filtered
    match lists. *)
Lemma extract_from_region content :
  monitorsStartPos content <> (-1)%Z ->
  monitorsEndPos content <> (-1)%Z ->
  extract_from content
  = pair_up (filter (in_monitors (monitorsStartPos content) (monitorsEndPos content))
                    (matchAll idRegex content))
            (filter (in_monitors (monitorsStartPos content) (monitorsEndPos content))
                    (matchAll nameRegex content)).
Proof.
  intros Hs He. unfold extract_from.
  destruct (Z.eqb_spec (monitorsStartPos content) (-1)) as [? | _]; [contradiction|].
  destruct (Z.eqb_spec (monitorsEndPos content) (-1)) as [? | _]; [contradiction|].
  reflexivity.
Qed.

(** The region of a text whose array body is properly nested ends at the
    bracket after the body. *)
Lemma monitorsEndPos_nested pre body rest :
  monitorsStartPos (pre ++ monitors_marker ++ body ++ RBRACKET :: rest)
  = Z.of_nat (length pre) ->
  nested body ->
  monitorsEndPos (pre ++ monitors_marker ++ body ++ RBRACKET :: rest)
  = Z.of_nat (length pre + length monitors_marker + length body).
Proof.
  intros Hs Hn. unfold monitorsEndPos. rewrite Hs.
  rewrite <- Nat2Z.inj_add, Nat2Z.id.
  rewrite app_assoc, <- length_app, skipn_app_length.
  rewrite find_closing_nested by (assumption || lia).
  cbn [find_closing]. change (N.eqb RBRACKET LBRACKET) with false.
  change (N.eqb RBRACKET RBRACKET) with true. cbv iota. simpl Z.eqb. cbv iota.
  rewrite length_app. lia.
Qed.

(** ** The shape of a match of the options pattern *)

Lemma Matches_Seq_inv r1 r2 s n c :
  Matches (Seq r1 r2) s n c ->
  exists n1 c1 n2 c2, Matches r1 s n1 c1 /\ Matches r2 (skipn n1 s) n2 c2 /\
                      n = n1 + n2 /\ c = c1 ++ c2.
Proof. intros H; inversion H; subst. repeat eexists; eauto. Qed.

Lemma Matches_Group_inv k r s n c :
  Matches (Group k r) s n c ->
  exists c', Matches r s n c' /\ c = (k, firstn n s) :: c'.
Proof. intros H; inversion H; subst. eauto. Qed.

Lemma Matches_Chr_inv a s n c :
  Matches (Chr a) s n c -> n = 1 /\ c = [] /\ exists rest, s = a :: rest.
Proof. intros H; inversion H; subst. repeat split. eauto. Qed.

Lemma Matches_Cls_inv (p : char -> bool) s n c :
  Matches (Cls p) s n c ->
  n = 1 /\ c = [] /\ exists x rest, s = x :: rest /\ p x = true.
Proof. intros H; inversion H; subst. repeat split. eauto. Qed.

Lemma Matches_Alt_inv r1 r2 s n c :
  Matches (Alt r1 r2) s n c -> Matches r1 s n c \/ Matches r2 s n c.
Proof. intros H; inversion H; subst; auto. Qed.

Lemma optionsRegex_shape s n c :
  Matches optionsRegex s n c ->
  exists w g2 g3 rest,
    s = (js "options:" ++ w ++ [LF]) ++ g2 ++ g3 ++ rest /\
    forallb cls_space w = true /\ terminator g3 /\
    n = length ((js "options:" ++ w ++ [LF]) ++ g2 ++ g3) /\
    c = [(1, js "options:" ++ w ++ [LF]); (2, g2); (3, g3)].
Proof.
  unfold optionsRegex. intros H.
  apply Matches_Seq_inv in H. destruct H as (n1 & c1 & n23 & c23 & H1 & H23 & -> & ->).
  apply Matches_Group_inv in H1. destruct H1 as (c1' & H1 & ->).
  apply Matches_Seq_inv in H1. destruct H1 as (na & ca & nb & cb & Ha & Hb & -> & ->).
  apply Matches_Lit in Ha. destruct Ha as (-> & -> & r1 & ->).
  rewrite skipn_app_length in Hb.
  apply Matches_Seq_inv in Hb. destruct Hb as (nw & cw & nl & cl & Hw & Hl & -> & ->).
  apply Matches_Star_all in Hw. destruct Hw as (-> & Hnw & Hw).
  apply Matches_Chr_inv in Hl. destruct Hl as (-> & -> & r2 & Hr2).
  assert (Er1 : r1 = firstn nw r1 ++ LF :: r2).
  { rewrite <- Hr2. symmetry. apply firstn_skipn. }
  assert (Hlw : length (firstn nw r1) = nw) by (rewrite length_firstn; lia).
  remember (firstn nw r1) as w eqn:Ew. clear Ew.
  remember (js "options:" ++ w ++ [LF]) as g1 eqn:Eg1.
  assert (Es : js "options:" ++ r1 = g1 ++ r2).
  { rewrite Eg1, Er1. now rewrite <- !app_assoc. }
  assert (Hg1 : length g1 = length (js "options:") + (nw + 1)).
  { rewrite Eg1, !length_app. simpl. lia. }
  rewrite Es in *. rewrite <- Hg1 in *.
  rewrite skipn_app_length in H23. rewrite firstn_app_length.
  apply Matches_Seq_inv in H23. destruct H23 as (n2 & c2 & n3 & c3 & H2 & H3 & -> & ->).
  apply Matches_Group_inv in H2. destruct H2 as (c2' & H2 & ->).
  apply Matches_Star_all in H2. destruct H2 as (-> & Hn2 & _).
  apply Matches_Group_inv in H3. destruct H3 as (c3' & H3 & ->).
  assert (Hlg2 : length (firstn n2 r2) = n2) by (rewrite length_firstn; lia).
  remember (firstn n2 r2) as g2 eqn:Eg2.
  assert (exists g3 rest, terminator g3 /\ skipn n2 r2 = g3 ++ rest /\ n3 = length g3 /\ c3' = []) as (g3 & rest & Ht & Hs & -> & ->).
  { apply Matches_Alt_inv in H3. destruct H3 as [H3 | H3];
      apply Matches_Lit in H3; destruct H3 as (-> & -> & rest & Hr);
      eexists _, rest; (split; [|split; [exact Hr | split; reflexivity]]);
      [left | right]; reflexivity. }
  exists w, g2, g3, rest. rewrite Hs, firstn_app_length.
  split; [|split; [assumption | split; [assumption | split]]].
  - rewrite Eg1. f_equal. rewrite <- Hs, Eg2. symmetry. apply firstn_skipn.
  - rewrite <- Eg1, !length_app. lia.
  - now rewrite Eg1.
Qed.

Section Substitution.

Variables (matched before after : str) (caps : captures) (m : nat).

Local Abbreviation GS := (GetSubstitution matched before after caps m).

Lemma ends_with_cons g c t : ends_with g (GS t) -> ends_with g (c :: GS t).
Proof. intros [X ->]. now exists (c :: X). Qed.

Lemma ends_with_app g l t : ends_with g (GS t) -> ends_with g (l ++ GS t).
Proof. intros [X ->]. exists (l ++ X). now rewrite app_assoc. Qed.

Lemma GS_tail g b B :
  plain b -> ends_with g (GS (b :: B)) ->
  forall n A, length A <= n -> ends_with g (GS (A ++ b :: B)).
Proof.
  intros (Hb1 & Hb2 & Hb3 & Hb4 & Hb5) HB.
  induction n as [|n IH]; intros A Hlen.
  { destruct A; [exact HB | simpl in Hlen; lia]. }
  destruct A as [|c A1]; [exact HB|]. simpl in Hlen.
  assert (H1 : ends_with g (GS (A1 ++ b :: B))) by (apply IH; lia).
  cbn [app GetSubstitution].
  destruct (N.eqb c DOLLAR); [|now apply ends_with_cons].
  destruct A1 as [|c1 A2].
  { cbn [app]. rewrite Hb1, Hb2, Hb3, Hb4, Hb5. now apply ends_with_cons. }
  simpl in Hlen.
  assert (H2 : ends_with g (GS (A2 ++ b :: B))) by (apply IH; lia).
  cbn [app].
  destruct (N.eqb c1 36); [now apply ends_with_cons|].
  destruct (N.eqb c1 96); [now apply ends_with_app|].
  destruct (N.eqb c1 38); [now apply ends_with_app|].
  destruct (N.eqb c1 39); [now apply ends_with_app|].
  destruct (digit_val c1) as [d1|]; [|now apply ends_with_cons].
  assert (Hone : ends_with g
    (if (1 <=? d1) && (d1 <=? m)
     then group d1 caps ++ GS (A2 ++ b :: B)
     else c :: c1 :: GS (A2 ++ b :: B))).
  { destruct ((1 <=? d1) && (d1 <=? m)); [now apply ends_with_app|].
    destruct H2 as [X ->]. now exists (c :: c1 :: X). }
  destruct A2 as [|c2 A3].
  { cbn [app] in *. rewrite Hb5. exact Hone. }
  cbn [app] in *. simpl in Hlen.
  assert (H3 : ends_with g (GS (A3 ++ b :: B))) by (apply IH; lia).
  destruct (digit_val c2) as [d2|]; [|exact Hone].
  destruct (m <? 10 * d1 + d2); [exact Hone|].
  destruct (1 <=? 10 * d1 + d2); [now apply ends_with_app|].
  destruct H3 as [X ->]. now exists (c :: c1 :: c2 :: X).
Qed.

Lemma GS_plain_app A t :
  forallb (fun c => negb (N.eqb c DOLLAR)) A = true -> GS (A ++ t) = A ++ GS t.
Proof.
  induction A as [|c A IH]; intros H; [reflexivity|].
  simpl in H. apply andb_true_iff in H as [Hc HA].
  cbn [app GetSubstitution]. apply negb_true_iff in Hc. rewrite Hc.
  now rewrite IH.
Qed.

End Substitution.

(** ** The Patcher's substitution *)

Lemma join_head (sep x : str) (l : list str) : exists t, join sep (x :: l) = x ++ t.
Proof.
  destruct l as [|y l]; [exists []; simpl; now rewrite app_nil_r|].
  now exists (sep ++ join sep (y :: l)).
Qed.

Lemma allOptions_head ms : exists c t, allOptions ms = c :: t /\ (c = LF \/ c = SP).
Proof.
  unfold allOptions, monitorOptions. destruct ms as [|m ms].
  - simpl. eexists _, _. split; [reflexivity | now left].
  - cbn [map]. destruct (join_head [LF] (render_option m) (map render_option ms)) as [t ->].
    unfold render_option. cbn. eexists _, _. split; [reflexivity | now right].
Qed.

Section PatchSubstitution.

Variables (matched before after g1 g2 g3 : str).

Local Abbreviation caps := [(1, g1); (2, g2); (3, g3)].
Local Abbreviation GS3 := (GetSubstitution matched before after caps 3).

Lemma replacement_expand ms :
  exists X, GS3 (replacement ms) = g1 ++ X ++ g3.
Proof.
  unfold replacement.
  assert (Htail : exists X, GS3 (allOptions ms ++ js "$3") = X ++ g3).
  { unfold allOptions.
    replace ((monitorOptions ms ++ [LF] ++ all_monitors_option) ++ js "$3")
      with ((monitorOptions ms ++ [LF] ++ js "        - label: 'All monitors'"
               ++ [LF] ++ js "          value: '") ++ 97%N :: js "ll'$3")
      by (unfold all_monitors_option; now rewrite <- !app_assoc).
    eapply GS_tail; [| |apply Nat.le_refl].
    - repeat split.
    - exists (js "all'"). cbn. now rewrite app_nil_r. }
  destruct Htail as [X HX]. exists X. rewrite <- HX.
  destruct (allOptions_head ms) as (c & t & -> & Hc).
  destruct Hc as [-> | ->]; reflexivity.
Qed.

Lemma replacement_expand_plain ms :
  forallb (fun c => negb (N.eqb c DOLLAR)) (allOptions ms) = true ->
  GS3 (replacement ms) = g1 ++ allOptions ms ++ g3.
Proof.
  intros Hp. unfold replacement.
  assert (Htail : GS3 (allOptions ms ++ js "$3") = allOptions ms ++ g3).
  { rewrite GS_plain_app by assumption. f_equal. cbn. apply app_nil_r. }
  rewrite <- Htail.
  destruct (allOptions_head ms) as (c & t & -> & Hc).
  destruct Hc as [-> | ->]; reflexivity.
Qed.

End PatchSubstitution.

(** ** What a search for the options pattern finds *)

Lemma hd_error_In (A : Type) (l : list A) (x : A) : hd_error l = Some x -> In x l.
Proof. destruct l; simpl; [discriminate | intros H; injection H as ->; now left]. Qed.

(** What a successful search for the options pattern has found. *)
Lemma search_options t mt :
  search optionsRegex t 0 = Some mt ->
  exists w g2 g3,
    forallb cls_space w = true /\ terminator g3 /\
    matched mt = (js "options:" ++ w ++ [LF]) ++ g2 ++ g3 /\
    groups mt = [(1, js "options:" ++ w ++ [LF]); (2, g2); (3, g3)] /\
    index mt <= length t /\
    (forall j, j < index mt -> rmatch optionsRegex (skipn j t) = []).
Proof.
  intros H. apply search_spec in H.
  destruct H as (k & n & c & Hi & Hk & Hh & Hm & Hg & Hj). simpl in Hi. subst k.
  apply hd_error_In, rmatch_Matches, optionsRegex_shape in Hh.
  destruct Hh as (w & g2 & g3 & rest & Hs & Hw & Ht & Hn & Hc).
  exists w, g2, g3. repeat (split; [assumption|]).
  split; [|split; [rewrite Hg; exact Hc | split; assumption]].
  rewrite Hm, Hs, Hn, !app_assoc. rewrite firstn_app_length. now rewrite <- !app_assoc.
Qed.

Lemma patch_found t ms mt w g2 g3 :
  search optionsRegex t 0 = Some mt ->
  groups mt = [(1, js "options:" ++ w ++ [LF]); (2, g2); (3, g3)] ->
  exists X,
    patch t ms = firstn (index mt) t ++ (js "options:" ++ w ++ [LF]) ++ X ++ g3
                 ++ skipn (index mt + length (matched mt)) t /\
    (forallb (fun c => negb (N.eqb c DOLLAR)) (allOptions ms) = true ->
     X = allOptions ms).
Proof.
  intros Hs Hg. unfold patch, replace. rewrite Hs. cbv zeta. rewrite Hg.
  change (ngroups optionsRegex) with 3.
  set (before := firstn (index mt) t).
  set (after := skipn (index mt + length (matched mt)) t).
  destruct (replacement_expand (matched mt) before after (js "options:" ++ w ++ [LF])
              g2 g3 ms) as [X HX].
  exists X. split.
  - rewrite HX. now rewrite <- !app_assoc.
  - intros Hp.
    rewrite (replacement_expand_plain (matched mt) before after _ g2 g3 ms Hp) in HX.
    apply app_inv_head, app_inv_tail in HX. now symmetry.
Qed.

(** ** Priorities: the first match *)

Lemma flat_map_map (A B C : Type) (g : A -> B) (f : B -> list C) (l : list A) :
  flat_map f (map g l) = flat_map (fun x => f (g x)) l.
Proof. induction l as [|x l IH]; simpl; [reflexivity | now rewrite IH]. Qed.

Lemma flat_map_nil (A B : Type) (f : A -> list B) (l : list A) :
  (forall x, In x l -> f x = []) -> flat_map f l = [].
Proof.
  induction l as [|x l IH]; intros H; simpl; [reflexivity|].
  rewrite (H x) by now left. apply IH. intros y Hy. apply H. now right.
Qed.

Lemma hd_error_app (A : Type) (l l' : list A) (x : A) :
  hd_error l = Some x -> hd_error (l ++ l') = Some x.
Proof. destruct l; simpl; [discriminate | auto]. Qed.

Lemma hd_error_map (A B : Type) (f : A -> B) (l : list A) (x : A) :
  hd_error l = Some x -> hd_error (map f l) = Some (f x).
Proof. destruct l; simpl; [discriminate | intros H; injection H as ->; reflexivity]. Qed.

Lemma hd_Seq r1 r2 s n1 c1 n2 c2 :
  hd_error (rmatch r1 s) = Some (n1, c1) ->
  hd_error (rmatch r2 (skipn n1 s)) = Some (n2, c2) ->
  hd_error (rmatch (Seq r1 r2) s) = Some (n1 + n2, c1 ++ c2).
Proof.
  intros H1 H2. cbn [rmatch].
  destruct (rmatch r1 s) as [|m1 l1]; [discriminate|]. simpl in H1. injection H1 as ->.
  cbn [flat_map fst snd]. apply hd_error_app.
  now apply (hd_error_map (fun m2 => (n1 + fst m2, c1 ++ snd m2))) in H2.
Qed.

Lemma hd_Group k r s n c :
  hd_error (rmatch r s) = Some (n, c) ->
  hd_error (rmatch (Group k r) s) = Some (n, (k, firstn n s) :: c).
Proof.
  intros H. cbn [rmatch].
  now apply (hd_error_map (fun m => (fst m, (k, firstn (fst m) s) :: snd m))) in H.
Qed.

Lemma hd_Lit l rest : hd_error (rmatch (Lit l) (l ++ rest)) = Some (length l, []).
Proof.
  induction l as [|a l IH]; [reflexivity|].
  change (Lit (a :: l)) with (Seq (Chr a) (Lit l)).
  change (length (a :: l)) with (1 + length l).
  change (@nil (nat * str)) with (@nil (nat * str) ++ []).
  apply hd_Seq; [|exact IH]. simpl. now rewrite N.eqb_refl.
Qed.

(** A lazy [[\s\S]*?] takes every length, shortest first. *)
Lemma star_lengths_lazy_any s : star_lengths false cls_any s = seq 0 (S (length s)).
Proof.
  induction s as [|c s IH]; [reflexivity|].
  cbn [star_lengths length]. unfold cls_any at 1. rewrite orb_negb_r, IH.
  now rewrite seq_shift.
Qed.

(** After the lazy group 2 the rest of the pattern matches at the first
    offset where it can. *)
Lemma hd_lazy_any r2 s k n2 c2 :
  k <= length s ->
  (forall j, j < k -> rmatch r2 (skipn j s) = []) ->
  hd_error (rmatch r2 (skipn k s)) = Some (n2, c2) ->
  hd_error (rmatch (Seq (Group 2 (Star false cls_any)) r2) s)
  = Some (k + n2, (2, firstn k s) :: c2).
Proof.
  intros Hk Hj Hh. cbn [rmatch]. rewrite star_lengths_lazy_any, !flat_map_map.
  cbn [fst snd].
  replace (S (length s)) with (k + S (length s - k)) by lia.
  rewrite seq_app, flat_map_app, flat_map_nil.
  - cbn [seq flat_map app Nat.add]. apply hd_error_app.
    now apply (hd_error_map (fun m2 => (k + fst m2, ((2, firstn k s) :: []) ++ snd m2))) in Hh.
  - intros j Hin. apply in_seq in Hin. rewrite Hj by lia. reflexivity.
Qed.

(** A greedy [\s*] before a line feed. *)
Lemma rmatch_star_step (p : char -> bool) r2 c s :
  p c = true ->
  rmatch (Seq (Star true p) r2) (c :: s)
  = map (fun m => (S (fst m), snd m)) (rmatch (Seq (Star true p) r2) s)
    ++ map (fun m2 => (0 + fst m2, [] ++ snd m2)) (rmatch r2 (c :: s)).
Proof.
  intros Hp. cbn [rmatch star_lengths]. rewrite Hp.
  rewrite map_app, flat_map_app, !flat_map_map. cbn [map flat_map fst snd skipn].
  rewrite app_nil_r. f_equal.
  rewrite !flat_map_concat_map, concat_map, !map_map. f_equal.
  apply map_ext. intros n. rewrite map_map. reflexivity.
Qed.

Lemma hd_space_LF w t :
  forallb cls_space w = true ->
  rmatch (Seq (Star true cls_space) (Chr LF)) t = [] ->
  hd_error (rmatch (Seq (Star true cls_space) (Chr LF)) (w ++ LF :: t))
  = Some (length w + 1, []).
Proof.
  intros Hw Ht. induction w as [|c w IH].
  - cbn [app length Nat.add]. rewrite rmatch_star_step by reflexivity.
    rewrite Ht. reflexivity.
  - simpl in Hw. apply andb_true_iff in Hw as [Hc Hw].
    cbn [app length]. rewrite rmatch_star_step by assumption.
    apply hd_error_app.
    now apply (hd_error_map (fun m => (S (fst m), snd m))) in IH.
Qed.

(** ** Rendered blocks hold no terminator *)

Lemma indented_app a b : indented a -> indented b -> indented (a ++ b).
Proof.
  induction 1; intros Hb; simpl;
    [assumption | apply indented_char; auto | apply indented_LF; auto].
Qed.

Lemma no_LF_indented s : no_LF s = true -> indented s.
Proof.
  induction s as [|c s IH]; intros H; [constructor|].
  simpl in H. apply andb_true_iff in H as [Hc Hs].
  constructor; [|now apply IH]. apply negb_true_iff, N.eqb_neq in Hc. exact Hc.
Qed.

Lemma options_end_not_LF c s : c <> LF -> rmatch options_end (c :: s) = [].
Proof.
  intros Hc. apply N.eqb_neq in Hc. unfold options_end. cbn. now rewrite Hc.
Qed.

Lemma indented_no_end a : indented a -> forall tail k,
  k < length a -> rmatch options_end (skipn k (a ++ tail)) = [].
Proof.
  induction 1 as [|c s Hc Hs IH|s Hs IH]; intros tail k Hk; simpl in Hk; [lia| |].
  - destruct k as [|k]; [now apply options_end_not_LF|]. apply IH. lia.
  - destruct k as [|[|[|[|k]]]]; try reflexivity.
    cbn [app skipn]. apply IH. lia.
Qed.

Lemma render_option_indented mon :
  no_LF (id mon) = true -> no_LF (name mon) = true ->
  indented (render_option mon) /\ indented (LF :: render_option mon).
Proof.
  intros Hi Hn. apply no_LF_indented in Hi, Hn.
  assert (H : indented (js "     - label: '" ++ id mon ++ js " - " ++ name mon ++ js "'"
                        ++ [LF] ++ js "          value: '" ++ id mon ++ js "'")).
  { apply indented_app; [now apply no_LF_indented|].
    apply indented_app; [assumption|].
    apply indented_app; [now apply no_LF_indented|].
    apply indented_app; [assumption|].
    apply indented_app; [now apply no_LF_indented|].
    change ([LF] ++ js "          value: '" ++ id mon ++ js "'")
      with (LF :: SP :: SP :: SP :: js "       value: '" ++ id mon ++ js "'").
    apply indented_LF. apply indented_app; [now apply no_LF_indented|].
    apply indented_app; [assumption | now apply no_LF_indented]. }
  split.
  - change (render_option mon) with (SP :: SP :: SP ::
      js "     - label: '" ++ id mon ++ js " - " ++ name mon ++ js "'"
        ++ [LF] ++ js "          value: '" ++ id mon ++ js "'").
    do 3 (apply indented_char; [discriminate|]). exact H.
  - change (render_option mon) with (SP :: SP :: SP ::
      js "     - label: '" ++ id mon ++ js " - " ++ name mon ++ js "'"
        ++ [LF] ++ js "          value: '" ++ id mon ++ js "'").
    now apply indented_LF.
Qed.

Lemma allOptions_cons m ms :
  allOptions (m :: ms)
  = render_option m ++ [LF] ++ match ms with
                               | [] => all_monitors_option
                               | _ :: _ => allOptions ms
                               end.
Proof.
  unfold allOptions, monitorOptions. destruct ms as [|m' ms]; [reflexivity|].
  cbn [map join]. now rewrite <- !app_assoc.
Qed.

Lemma all_monitors_option_indented : indented (LF :: all_monitors_option).
Proof.
  cbv. repeat first [ apply indented_LF | apply indented_char; [discriminate|]
                    | apply indented_nil ].
Qed.

Lemma allOptions_indented m ms :
  forallb tame_monitor (m :: ms) = true ->
  indented (LF :: allOptions (m :: ms)).
Proof.
  revert m; induction ms as [|m' ms IH]; intros m H; rewrite allOptions_cons;
    cbn [forallb] in H; apply andb_true_iff in H as [Hm H];
    unfold tame_monitor in Hm; rewrite !andb_true_iff in Hm;
    destruct Hm as [[[Hi Hn] _] _];
    destruct (@render_option_indented m Hi Hn) as [_ Hr];
    change (LF :: render_option m ++ [LF] ++ ?x) with ((LF :: render_option m) ++ LF :: x);
    apply indented_app; try exact Hr.
  - exact all_monitors_option_indented.
  - now apply IH.
Qed.

Lemma indented_tail c s : indented (c :: s) -> indented s.
Proof.
  intros H; inversion H; subst; [assumption|].
  do 3 (apply indented_char; [discriminate|]). assumption.
Qed.

Lemma no_DOLLAR_app a b : no_DOLLAR (a ++ b) = no_DOLLAR a && no_DOLLAR b.
Proof. apply forallb_app. Qed.

Lemma allOptions_no_DOLLAR ms :
  forallb tame_monitor ms = true -> no_DOLLAR (allOptions ms) = true.
Proof.
  destruct ms as [|m ms]; [reflexivity|]. revert m.
  induction ms as [|m' ms IH]; intros m H; rewrite allOptions_cons;
    cbn [forallb] in H; apply andb_true_iff in H as [Hm H];
    unfold tame_monitor in Hm; rewrite !andb_true_iff in Hm;
    destruct Hm as [[[_ _] Hi] Hn]; unfold render_option;
    rewrite !no_DOLLAR_app, Hi, Hn; cbn [andb].
  - reflexivity.
  - rewrite IH by assumption. reflexivity.
Qed.

Lemma allOptions_start m ms : exists A', allOptions (m :: ms) = js "        -" ++ A'.
Proof.
  rewrite allOptions_cons. unfold render_option. eexists.
  change (js "        - label: '") with (js "        -" ++ js " label: '").
  rewrite <- !app_assoc. reflexivity.
Qed.

(** ** The second application finds the region the first one wrote *)

Lemma hd_options_end g3 suf :
  terminator g3 ->
  hd_error (rmatch options_end (g3 ++ suf)) = Some (length g3, [(3, g3)]).
Proof. intros [-> | ->]; reflexivity. Qed.

Lemma hd_options_region w A g3 suf :
  forallb cls_space w = true -> terminator g3 -> indented A ->
  (exists A', A = js "        -" ++ A') ->
  hd_error (rmatch optionsRegex ((js "options:" ++ w ++ [LF]) ++ A ++ g3 ++ suf))
  = Some (length ((js "options:" ++ w ++ [LF]) ++ A ++ g3),
          [(1, js "options:" ++ w ++ [LF]); (2, A); (3, g3)]).
Proof.
  intros Hw Ht HA [A' EA].
  set (g1 := js "options:" ++ w ++ [LF]).
  replace (length (g1 ++ A ++ g3)) with (length g1 + (length A + length g3))
    by (rewrite !length_app; lia).
  change [(1, g1); (2, A); (3, g3)] with ([(1, g1)] ++ [(2, A); (3, g3)]).
  unfold optionsRegex. apply hd_Seq.
  - replace [(1, g1)] with [(1, firstn (length g1) (g1 ++ A ++ g3 ++ suf))]
      by (now rewrite firstn_app_length).
    apply hd_Group.
    unfold g1. rewrite <- !app_assoc.
    replace (length (js "options:" ++ w ++ [LF])) with (length (js "options:") + (length w + 1))
      by (rewrite !length_app; simpl; lia).
    change (@nil (nat * str)) with (@nil (nat * str) ++ []).
    apply hd_Seq; [apply hd_Lit|]. rewrite skipn_app_length.
    cbn [app]. apply hd_space_LF; [assumption|]. rewrite EA. reflexivity.
  - rewrite skipn_app_length.
    replace [(2, A); (3, g3)]
      with ((2, firstn (length A) (A ++ g3 ++ suf)) :: [(3, g3)])
      by (now rewrite firstn_app_length).
    apply hd_lazy_any.
    + rewrite length_app. lia.
    + intros j Hj. now apply indented_no_end.
    + rewrite skipn_app_length. now apply hd_options_end.
Qed.

(** ** No earlier match appears *)

Lemma optionsRegex_intro w g2 g3 rest :
  forallb cls_space w = true -> terminator g3 ->
  rmatch optionsRegex ((js "options:" ++ w ++ [LF]) ++ g2 ++ g3 ++ rest) <> [].
Proof.
  intros Hw Ht.
  pose proof (@hd_options_end g3 rest Ht) as He.
  assert (H : exists n c,
    Matches optionsRegex ((js "options:" ++ w ++ [LF]) ++ g2 ++ g3 ++ rest) n c).
  { unfold optionsRegex. do 2 eexists. eapply M_Seq.
    - apply M_Group. eapply M_Seq.
      + apply Matches_Lit. split; [reflexivity | split; [reflexivity|]].
        eexists. rewrite <- !app_assoc. reflexivity.
      + rewrite <- !app_assoc, skipn_app_length. eapply M_Seq.
        * apply Matches_Star_all. split; [reflexivity | split].
          -- instantiate (1 := length w). rewrite length_app. lia.
          -- now rewrite firstn_app_length.
        * rewrite skipn_app_length. apply M_Chr.
    - replace (length (js "options:") + (length w + 1))
        with (length (js "options:" ++ w ++ [LF])) by (rewrite !length_app; simpl; lia).
      rewrite skipn_app_length. eapply M_Seq.
      + apply M_Group. apply Matches_Star_all. split; [reflexivity | split].
        * instantiate (1 := length g2). rewrite length_app. lia.
        * apply forallb_forall. intros x _. unfold cls_any. apply orb_negb_r.
      + rewrite skipn_app_length. apply rmatch_Matches, hd_error_In. exact He. }
  destruct H as (n & c & H). apply rmatch_Matches in H.
  intros E. rewrite E in H. destruct H.
Qed.

Lemma space_prefix w' : forall u x y,
  forallb cls_space w' = true ->
  u ++ js "options:" ++ x = w' ++ LF :: y ->
  exists u', u = w' ++ LF :: u'.
Proof.
  induction w' as [|a w' IH]; intros u x y Hw H.
  - destruct u as [|c u]; [discriminate H|].
    cbn [app] in H. injection H as -> H. now exists u.
  - cbn [forallb] in Hw. apply andb_true_iff in Hw as [Ha Hw].
    destruct u as [|c u].
    + cbn in H. injection H as <- _. discriminate Ha.
    + cbn [app] in H. injection H as -> H.
      destruct (IH u x y Hw H) as [u' ->]. now exists u'.
Qed.

Lemma no_overlap u x w' y :
  u <> [] -> forallb cls_space w' = true ->
  u ++ js "options:" ++ x = js "options:" ++ w' ++ LF :: y ->
  exists u', u = js "options:" ++ w' ++ LF :: u'.
Proof.
  intros Hu Hw H.
  change (js "options:") with [111; 112; 116; 105; 111; 110; 115; 58]%N in *.
  destruct u as [|c u]; [contradiction|]. cbn [app] in H. injection H as -> H.
  do 7 (destruct u as [|c u]; [discriminate H|]; cbn [app] in H; injection H as -> H).
  destruct (@space_prefix w' u x y Hw H) as [u' ->]. now exists u'.
Qed.

Lemma no_earlier pre w g2 A g3 suf :
  forallb cls_space w = true -> terminator g3 ->
  (forall j, j < length pre ->
     rmatch optionsRegex
       (skipn j (pre ++ (js "options:" ++ w ++ [LF]) ++ g2 ++ g3 ++ suf)) = []) ->
  forall j, j < length pre ->
    rmatch optionsRegex
      (skipn j (pre ++ (js "options:" ++ w ++ [LF]) ++ A ++ g3 ++ suf)) = [].
Proof.
  intros Hw Ht Hold j Hj.
  destruct (rmatch optionsRegex _) as [|[n c] l] eqn:E; [reflexivity | exfalso].
  assert (Hin : In (n, c) (rmatch optionsRegex
      (skipn j (pre ++ (js "options:" ++ w ++ [LF]) ++ A ++ g3 ++ suf)))).
  { rewrite E. now left. }
  apply rmatch_Matches, optionsRegex_shape in Hin.
  destruct Hin as (w' & g2' & g3' & rest' & Hs & Hw' & Ht' & _).
  specialize (Hold j Hj).
  rewrite skipn_app in Hs, Hold.
  replace (j - length pre) with 0 in Hs, Hold by lia. cbn [skipn] in Hs, Hold.
  assert (Hu : skipn j pre <> []).
  { intros E0. apply (f_equal (@length char)) in E0. rewrite length_skipn in E0.
    simpl in E0. lia. }
  rewrite <- !app_assoc in Hs.
  destruct (@no_overlap _ _ _ _ Hu Hw' Hs) as [u' Eu].
  rewrite Eu in Hold. revert Hold.
  replace ((js "options:" ++ w' ++ LF :: u') ++ (js "options:" ++ w ++ [LF]) ++ g2 ++ g3 ++ suf)
    with ((js "options:" ++ w' ++ [LF]) ++ (u' ++ (js "options:" ++ w ++ [LF]) ++ g2) ++ g3 ++ suf)
    by (rewrite <- !app_assoc; reflexivity).
  now apply optionsRegex_intro.
Qed.

(** ** The shape of a field match *)

Lemma fieldRegex_shape key s n c :
  Matches (fieldRegex key) s n c ->
  exists ws q1 v q2 rest,
    s = key ++ ws ++ q1 :: v ++ q2 :: rest /\
    forallb cls_space ws = true /\ cls_quote q1 = true /\ cls_quote q2 = true /\
    v <> [] /\ forallb cls_not_quote v = true /\
    n = length (key ++ ws ++ q1 :: v ++ [q2]) /\ c = [(1, v)].
Proof.
  unfold fieldRegex, Plus. intros H.
  apply Matches_Seq_inv in H. destruct H as (n0 & c0 & na & ca & Hk & H & -> & ->).
  apply Matches_Lit in Hk. destruct Hk as (-> & -> & r0 & ->).
  rewrite skipn_app_length in H.
  apply Matches_Seq_inv in H. destruct H as (nw & cw & nb & cb & Hw & H & -> & ->).
  apply Matches_Star_all in Hw. destruct Hw as (-> & Hnw & Hw).
  apply Matches_Seq_inv in H. destruct H as (nq & cq & nc & cc & Hq & H & -> & ->).
  apply Matches_Cls_inv in Hq. destruct Hq as (-> & -> & q1 & r2 & Er1 & Hq1).
  rewrite Er1 in H. cbn [skipn] in H.
  apply Matches_Seq_inv in H. destruct H as (ng & cg & nd & cd & Hg & H & -> & ->).
  apply Matches_Group_inv in Hg. destruct Hg as (cg' & Hg & ->).
  apply Matches_Seq_inv in Hg. destruct Hg as (nx & cx & nv & cv & Hx & Hv & -> & ->).
  apply Matches_Cls_inv in Hx. destruct Hx as (-> & -> & x & r3 & -> & Hx).
  cbn [skipn] in Hv.
  apply Matches_Star_all in Hv. destruct Hv as (-> & Hnv & Hv).
  cbn [Nat.add skipn firstn app] in *.
  apply Matches_Cls_inv in H. destruct H as (-> & -> & q2 & rest & Er3 & Hq2).
  exists (firstn nw r0), q1, (x :: firstn nv r3), q2, rest.
  assert (E0 : r0 = firstn nw r0 ++ q1 :: x :: r3).
  { rewrite <- Er1. symmetry. apply firstn_skipn. }
  assert (E3 : r3 = firstn nv r3 ++ q2 :: rest).
  { rewrite <- Er3. symmetry. apply firstn_skipn. }
  split; [|split; [assumption | split; [assumption | split; [assumption |
          split; [discriminate | split; [|split]]]]]].
  - rewrite E0 at 1. rewrite E3 at 1. reflexivity.
  - cbn [forallb]. now rewrite Hx, Hv.
  - rewrite !length_app. cbn [length]. rewrite !length_app. cbn [length].
    rewrite !length_firstn. lia.
  - reflexivity.
Qed.

(** ** Stepping through [matchAll] *)

Section Stepping.
Variable r : regex.

Lemma matchAll_from_skip a : forall b i,
  (forall j, j < length a -> rmatch r (skipn j (a ++ b)) = []) ->
  matchAll_from r (a ++ b) i 0 = matchAll_from r b (i + length a) 0.
Proof.
  induction a as [|c a IH]; intros b i H.
  - simpl. now rewrite Nat.add_0_r.
  - pose proof (H 0 ltac:(simpl; lia)) as H0. cbn [skipn] in H0.
    cbn [app matchAll_from]. cbn [app] in H0. rewrite H0.
    rewrite IH; [f_equal; simpl; lia|].
    intros j Hj. apply (H (S j)). simpl. lia.
Qed.

Lemma matchAll_from_covered a : forall b i,
  matchAll_from r (a ++ b) i (length a) = matchAll_from r b (i + length a) 0.
Proof.
  induction a as [|c a IH]; intros b i.
  - simpl. now rewrite Nat.add_0_r.
  - cbn [app length matchAll_from]. rewrite IH. f_equal. lia.
Qed.

Lemma matchAll_from_match a b i c :
  a <> [] ->
  hd_error (rmatch r (a ++ b)) = Some (length a, c) ->
  matchAll_from r (a ++ b) i 0
  = MkMatch i a c :: matchAll_from r b (i + length a) 0.
Proof.
  intros Ha Hh. destruct a as [|x a]; [contradiction|].
  cbn [app matchAll_from]. cbn [app] in Hh.
  destruct (rmatch r (x :: a ++ b)) as [|[n c'] l]; [discriminate|].
  cbn [hd_error] in Hh. injection Hh as -> ->.
  f_equal.
  - f_equal. change (x :: a ++ b) with ((x :: a) ++ b).
    apply (firstn_app_length (x :: a) b).
  - cbn [length pred]. rewrite matchAll_from_covered. f_equal. lia.
Qed.

End Stepping.

(** ** A field pattern matches only at its key *)

Lemma fieldRegex_needs_key key s :
  starts_with key s = false -> rmatch (fieldRegex key) s = [].
Proof.
  intros Hk. destruct (rmatch (fieldRegex key) s) as [|[n c] l] eqn:E; [reflexivity|].
  assert (Hin : In (n, c) (rmatch (fieldRegex key) s)) by (rewrite E; now left).
  apply rmatch_Matches, fieldRegex_shape in Hin.
  destruct Hin as (ws & q1 & v & q2 & rest & Hs & _).
  assert (starts_with key s = true) by (apply starts_with_app; eexists; exact Hs).
  congruence.
Qed.

Lemma starts_with_first key0 key a b :
  forallb (fun c => negb (N.eqb key0 c)) a = true ->
  forall j, j < length a -> starts_with (key0 :: key) (skipn j (a ++ b)) = false.
Proof.
  induction a as [|c a IH]; intros Ha j Hj; simpl in Hj; [lia|].
  cbn [forallb] in Ha. apply andb_true_iff in Ha as [Hc Ha].
  destruct j as [|j].
  - cbn. apply negb_true_iff in Hc. now rewrite Hc.
  - cbn [skipn app]. apply IH; [assumption | lia].
Qed.

Lemma starts_with_nth k0 s :
  starts_with (k0 ++ [COLON]) s = true -> nth_error s (length k0) = Some COLON.
Proof.
  revert s; induction k0 as [|a k0 IH]; intros s H.
  - destruct s as [|c s]; [discriminate|]. cbn [app starts_with] in H.
    apply andb_true_iff in H as [H _]. apply N.eqb_eq in H. cbn. now rewrite <- H.
  - destruct s as [|c s]; [discriminate|]. cbn [app starts_with] in H.
    apply andb_true_iff in H as [_ H]. cbn. now apply IH.
Qed.

Lemma no_colon_nth s k : no_colon s = true -> nth_error s k <> Some COLON.
Proof.
  revert k; induction s as [|c s IH]; intros k H; [destruct k; discriminate|].
  cbn [no_colon forallb] in H. apply andb_true_iff in H as [Hc Hs].
  destruct k as [|k]; cbn.
  - intros E. injection E as ->. discriminate Hc.
  - now apply IH.
Qed.

Lemma key_not_in_value k0 v t :
  no_colon v = true -> no_colon (firstn (length k0) t) = true ->
  length k0 <= length t ->
  forall j, j < length v -> starts_with (k0 ++ [COLON]) (skipn j (v ++ t)) = false.
Proof.
  intros Hv Ht Hlen j Hj.
  destruct (starts_with (k0 ++ [COLON]) (skipn j (v ++ t))) eqn:E; [exfalso | reflexivity].
  apply starts_with_nth in E. rewrite nth_error_skipn in E.
  destruct (Nat.lt_ge_cases (j + length k0) (length v)) as [Hin | Hout].
  - rewrite nth_error_app1 in E by assumption. now apply (@no_colon_nth v _ Hv) in E.
  - rewrite nth_error_app2 in E by assumption.
    rewrite <- (firstn_skipn (length k0) t) in E.
    rewrite nth_error_app1 in E by (rewrite length_firstn; lia).
    now apply (@no_colon_nth _ _ Ht) in E.
Qed.

(** ** The first-priority match of a field *)

Lemma rmatch_star_stop (p : char -> bool) r2 c s :
  p c = false ->
  rmatch (Seq (Star true p) r2) (c :: s)
  = map (fun m2 => (0 + fst m2, [] ++ snd m2)) (rmatch r2 (c :: s)).
Proof.
  intros Hp. cbn [rmatch star_lengths]. rewrite Hp. cbn [map flat_map fst snd skipn].
  now rewrite app_nil_r.
Qed.

Lemma hd_star_max (p : char -> bool) w c t :
  forallb p w = true -> p c = false ->
  hd_error (rmatch (Star true p) (w ++ c :: t)) = Some (length w, []).
Proof.
  intros Hw Hc. induction w as [|x w IH].
  - cbn. now rewrite Hc.
  - cbn [forallb] in Hw. apply andb_true_iff in Hw as [Hx Hw].
    specialize (IH Hw). cbn [rmatch] in *. cbn [app star_lengths length].
    rewrite Hx, map_app, map_map. apply hd_error_app.
    destruct (star_lengths true p (w ++ c :: t)); [discriminate|].
    cbn in *. injection IH as ->. reflexivity.
Qed.

Lemma simple_not_quote v : simple v = true -> forallb cls_not_quote v = true.
Proof.
  intros H. assert (Hall : forallb simple_char v = true) by (destruct v; [discriminate | exact H]).
  clear H. induction v as [|c v IH]; [reflexivity|].
  cbn [forallb] in *. apply andb_true_iff in Hall as [Hc Hv].
  rewrite IH by assumption. unfold simple_char in Hc.
  rewrite !andb_true_iff in Hc. destruct Hc as [[[Hq _] _] _].
  unfold cls_not_quote. now rewrite Hq.
Qed.

Lemma simple_no_colon v : simple v = true -> no_colon v = true.
Proof.
  intros H. assert (Hall : forallb simple_char v = true) by (destruct v; [discriminate | exact H]).
  clear H. induction v as [|c v IH]; [reflexivity|].
  cbn [forallb no_colon] in *. apply andb_true_iff in Hall as [Hc Hv].
  fold (no_colon v). rewrite IH by assumption. unfold simple_char in Hc.
  rewrite !andb_true_iff in Hc. destruct Hc as [[[_ Hq] _] _]. now rewrite Hq.
Qed.

Lemma simple_nested v : simple v = true -> nested v.
Proof.
  intros H. assert (Hall : forallb simple_char v = true) by (destruct v; [discriminate | exact H]).
  clear H. induction v as [|c v IH]; [constructor|].
  cbn [forallb] in Hall. apply andb_true_iff in Hall as [Hc Hv].
  unfold simple_char in Hc. rewrite !andb_true_iff in Hc.
  destruct Hc as [[[_ _] Hl] Hr].
  apply negb_true_iff, N.eqb_neq in Hl, Hr. constructor; auto.
Qed.

Lemma hd_field key v rest :
  simple v = true ->
  hd_error (rmatch (fieldRegex key) (key ++ SP :: QUOTE :: v ++ QUOTE :: rest))
  = Some (length (key ++ SP :: QUOTE :: v ++ [QUOTE]), [(1, v)]).
Proof.
  intros Hv. pose proof (simple_not_quote _ Hv) as Hnq.
  destruct v as [|x v]; [discriminate|].
  cbn [forallb] in Hnq. apply andb_true_iff in Hnq as [Hx Hnq].
  replace (length (key ++ SP :: QUOTE :: (x :: v) ++ [QUOTE]))
    with (length key + (S (0 + (1 + ((1 + length v) + 1)))))
    by (rewrite !length_app; cbn [length]; rewrite length_app; cbn [length]; lia).
  change [(1, x :: v)] with ([] ++ [] ++ [] ++ [(1, x :: v)] ++ @nil (nat * str)).
  assert (H3 : hd_error (rmatch (Seq (Cls cls_quote)
                  (Seq (Group 1 (Plus cls_not_quote)) (Cls cls_quote)))
                  (QUOTE :: (x :: v) ++ QUOTE :: rest))
               = Some (1 + ((1 + length v) + 1), [] ++ [(1, x :: v)] ++ [])).
  { apply hd_Seq; [reflexivity|]. cbn [skipn].
    apply hd_Seq.
    - replace [(1, x :: v)] with [(1, firstn (1 + length v) ((x :: v) ++ QUOTE :: rest))]
        by (cbn [app firstn Nat.add]; now rewrite firstn_app_length).
      apply hd_Group. unfold Plus.
      change (@nil (nat * str)) with (@nil (nat * str) ++ []).
      apply hd_Seq; [cbn; now rewrite Hx|]. cbn [skipn app].
      apply hd_star_max; [assumption | reflexivity].
    - change (1 + length v) with (length (x :: v)). rewrite skipn_app_length. reflexivity. }
  unfold fieldRegex. apply hd_Seq; [apply hd_Lit|]. rewrite skipn_app_length.
  rewrite rmatch_star_step by reflexivity. apply hd_error_app.
  rewrite rmatch_star_stop by reflexivity.
  apply (hd_error_map (fun m2 => (0 + fst m2, [] ++ snd m2)) _) in H3.
  apply (hd_error_map (fun m => (S (fst m), snd m)) _) in H3.
  exact H3.
Qed.

(** ** Segments without the key *)

Lemma key_free_app key a b c :
  key_free key a (b ++ c) -> key_free key b c -> key_free key (a ++ b) c.
Proof.
  intros Ha Hb j Hj. rewrite <- app_assoc.
  destruct (Nat.lt_ge_cases j (length a)) as [Hlt | Hge]; [now apply Ha|].
  rewrite skipn_app. rewrite (skipn_all2 a) by assumption. cbn [app].
  apply Hb. rewrite length_app in Hj. lia.
Qed.

Lemma key_free_first key0 key a b :
  forallb (fun c => negb (N.eqb key0 c)) a = true -> key_free (key0 :: key) a b.
Proof. intros Ha j Hj. now apply starts_with_first. Qed.

Lemma key_free_value k0 v t :
  simple v = true -> no_colon (firstn (length k0) t) = true ->
  length k0 <= length t -> key_free (k0 ++ [COLON]) v t.
Proof.
  intros Hv Ht Hlen j Hj. apply key_not_in_value; auto using simple_no_colon.
Qed.

Lemma key_free_nomatch key a b :
  key_free key a b ->
  forall j, j < length a -> rmatch (fieldRegex key) (skipn j (a ++ b)) = [].
Proof. intros H j Hj. apply fieldRegex_needs_key. now apply H. Qed.

(** ** One record *)

Lemma declare_id_view mon :
  declare mon = js "{ " ++ id_field mon
                ++ (js ", name: '" ++ name mon ++ js "', expectedCodes: [200] }, ").
Proof. unfold declare, id_field. simpl. rewrite <- ?app_assoc. reflexivity. Qed.

Lemma declare_name_view mon :
  declare mon = (js "{ id: '" ++ id mon ++ js "', ") ++ name_field mon
                ++ js ", expectedCodes: [200] }, ".
Proof. unfold declare, name_field. simpl. rewrite <- ?app_assoc. reflexivity. Qed.

Lemma matchAll_id_record mon rest i :
  simple_monitor mon = true ->
  matchAll_from idRegex (declare mon ++ rest) i 0
  = MkMatch (i + 2) (id_field mon) [(1, id mon)]
    :: matchAll_from idRegex rest (i + length (declare mon)) 0.
Proof.
  intros Hm. unfold simple_monitor in Hm. apply andb_true_iff in Hm as [Hi Hn].
  change idRegex with (fieldRegex (js "id:")).
  rewrite declare_id_view at 1. rewrite <- !app_assoc.
  rewrite matchAll_from_skip.
  2:{ apply key_free_nomatch. now apply key_free_first. }
  rewrite matchAll_from_match with (c := [(1, id mon)]).
  2:{ unfold id_field. destruct (js "id:"); discriminate. }
  2:{ unfold id_field. rewrite <- !app_assoc. cbn [app]. rewrite <- app_assoc.
      cbn [app]. now apply hd_field. }
  f_equal.
  rewrite app_assoc, app_assoc.
  rewrite <- (app_assoc (js ", name: '")).
  rewrite matchAll_from_skip.
  2:{ apply key_free_nomatch. change (js "id:") with (105%N :: js "d:").
      apply key_free_app; [now apply key_free_first|].
      apply key_free_app; [|now apply key_free_first].
      change (105%N :: js "d:") with (js "id" ++ [COLON]).
      apply key_free_value; [assumption | reflexivity | simpl; lia]. }
  f_equal. rewrite declare_id_view, !length_app. cbn [length]. lia.
Qed.

Lemma matchAll_name_record mon rest i :
  simple_monitor mon = true ->
  matchAll_from nameRegex (declare mon ++ rest) i 0
  = MkMatch (i + (10 + length (id mon))) (name_field mon) [(1, name mon)]
    :: matchAll_from nameRegex rest (i + length (declare mon)) 0.
Proof.
  intros Hm. unfold simple_monitor in Hm. apply andb_true_iff in Hm as [Hi Hn].
  change nameRegex with (fieldRegex (js "name:")).
  rewrite declare_name_view at 1. rewrite <- (app_assoc _ _ rest).
  rewrite matchAll_from_skip.
  2:{ apply key_free_nomatch. change (js "name:") with (110%N :: js "ame:").
      rewrite <- app_assoc.
      apply key_free_app; [now apply key_free_first|].
      apply key_free_app; [|now apply key_free_first].
      change (110%N :: js "ame:") with (js "name" ++ [COLON]).
      apply key_free_value; [assumption | reflexivity | simpl; lia]. }
  rewrite <- app_assoc.
  rewrite matchAll_from_match with (c := [(1, name mon)]).
  2:{ unfold name_field. destruct (js "name:"); discriminate. }
  2:{ unfold name_field. rewrite <- !app_assoc. cbn [app]. rewrite <- app_assoc.
      cbn [app]. now apply hd_field. }
  f_equal.
  - f_equal. rewrite !length_app. simpl. lia.
  - rewrite matchAll_from_skip.
    2:{ apply key_free_nomatch. now apply key_free_first. }
    f_equal. rewrite declare_name_view, !length_app. cbn [length]. lia.
Qed.

(** ** All the records *)

Section Records.

Variables (r : regex) (field : monitor -> str) (off : monitor -> nat)
          (txt : monitor -> str).

Hypothesis record_step : forall mon rest i,
  simple_monitor mon = true ->
  matchAll_from r (declare mon ++ rest) i 0
  = MkMatch (i + off mon) (txt mon) [(1, field mon)]
    :: matchAll_from r rest (i + length (declare mon)) 0.

Hypothesis off_inside : forall mon, off mon < length (declare mon).

Lemma matchAll_records mons : forall rest i,
  forallb simple_monitor mons = true ->
  exists L,
    matchAll_from r (concat (map declare mons) ++ rest) i 0
    = L ++ matchAll_from r rest (i + length (concat (map declare mons))) 0
    /\ map captured L = map field mons
    /\ Forall (fun m => i <= index m < i + length (concat (map declare mons))) L.
Proof.
  induction mons as [|mon mons IH]; intros rest i Hs.
  - exists []. cbn. rewrite Nat.add_0_r. repeat split. constructor.
  - cbn [forallb] in Hs. apply andb_true_iff in Hs as [Hm Hs].
    cbn [map concat]. rewrite <- app_assoc, record_step by assumption.
    destruct (IH rest (i + length (declare mon)) Hs) as (L & HL & Hcap & Hidx).
    exists (MkMatch (i + off mon) (txt mon) [(1, field mon)] :: L).
    rewrite HL, length_app. split; [|split].
    + cbn [app]. do 2 f_equal. f_equal. lia.
    + cbn [map]. now rewrite Hcap.
    + constructor.
      * cbn [index]. pose proof (off_inside mon). lia.
      * eapply Forall_impl; [|exact Hidx]. cbn beta. intros m Hm'. lia.
Qed.

End Records.

Lemma pair_declared L1 L2 mons :
  map captured L1 = map id mons -> map captured L2 = map name mons ->
  map entry_of (combine L1 L2) = mons.
Proof.
  revert L1 L2; induction mons as [|mon mons IH]; intros L1 L2 H1 H2.
  - destruct L1; [reflexivity | discriminate].
  - destruct L1 as [|m1 L1]; [discriminate|]. destruct L2 as [|m2 L2]; [discriminate|].
    cbn [map] in H1, H2. injection H1 as Hi H1. injection H2 as Hn H2.
    cbn [combine map]. rewrite (IH L1 L2 H1 H2). f_equal.
    unfold entry_of, captured in *. cbn [fst snd]. rewrite Hi, Hn. now destruct mon.
Qed.

(** ** Before the array *)

Lemma starts_with_nth_error pat : forall s k,
  starts_with pat s = true -> k < length pat -> nth_error s k = nth_error pat k.
Proof.
  induction pat as [|p pat IH]; intros s k H Hk; [simpl in Hk; lia|].
  destruct s as [|c s]; [discriminate|]. cbn [starts_with] in H.
  apply andb_true_iff in H as [Hc H]. apply N.eqb_eq in Hc. subst c.
  destruct k as [|k]; [reflexivity|]. cbn. apply IH; [assumption | simpl in Hk; lia].
Qed.

Lemma quiet_nth pre k c :
  quiet pre = true -> nth_error pre k = Some c ->
  cls_quote c = false /\ c <> LBRACKET.
Proof.
  revert k; induction pre as [|x pre IH]; intros k Hq Hk; [destruct k; discriminate|].
  cbn [quiet forallb] in Hq. apply andb_true_iff in Hq as [Hx Hq].
  destruct k as [|k].
  - cbn in Hk. injection Hk as ->. apply andb_true_iff in Hx as [H1 H2].
    apply negb_true_iff in H1, H2. apply N.eqb_neq in H2. now split.
  - now apply (IH k Hq Hk).
Qed.

(** In [pre ++ monitors_marker] no code unit is a quote, and the only
    opening bracket is the last code unit. *)
Lemma before_array_nth pre k c :
  quiet pre = true ->
  nth_error (pre ++ monitors_marker) k = Some c ->
  cls_quote c = false /\ (c = LBRACKET -> k = length pre + 10).
Proof.
  intros Hq Hk.
  destruct (Nat.lt_ge_cases k (length pre)) as [Hlt | Hge].
  - rewrite nth_error_app1 in Hk by assumption.
    destruct (@quiet_nth pre k c Hq Hk) as [H1 H2]. split; [assumption | contradiction].
  - rewrite nth_error_app2 in Hk by assumption.
    remember (k - length pre) as d eqn:Ed.
    do 11 (destruct d as [|d]; [cbn in Hk; injection Hk as <-; split;
                                [reflexivity | try discriminate; intros _; lia]|]).
    destruct d; discriminate.
Qed.

Lemma indexOf_quiet pre x : forall i,
  quiet pre = true ->
  indexOf_from (pre ++ monitors_marker ++ x) monitors_marker i
  = (i + Z.of_nat (length pre))%Z.
Proof.
  induction pre as [|c pre IH]; intros i Hq.
  - cbn [app]. destruct (monitors_marker ++ x) as [|y l] eqn:E; [discriminate|].
    cbn [indexOf_from]. rewrite <- E, (proj2 (starts_with_app _ _)) by (now exists x).
    cbn. lia.
  - cbn [app indexOf_from].
    destruct (starts_with monitors_marker (c :: pre ++ monitors_marker ++ x)) eqn:E.
    + exfalso. pose proof (@starts_with_nth_error _ _ 10 E ltac:(cbn; lia)) as H.
      change (nth_error monitors_marker 10) with (Some LBRACKET) in H.
      change (c :: pre ++ monitors_marker ++ x) with ((c :: pre) ++ monitors_marker ++ x) in H.
      rewrite app_assoc in H.
      rewrite nth_error_app1 in H by (rewrite length_app; cbn; lia).
      destruct (@before_array_nth (c :: pre) 10 LBRACKET Hq H) as [_ Hk].
      specialize (Hk eq_refl). cbn [length] in Hk. lia.
    + cbn [quiet forallb] in Hq. apply andb_true_iff in Hq as [_ Hq].
      rewrite IH by assumption. cbn [length]. lia.
Qed.

Lemma no_field_before key pre X :
  quiet pre = true ->
  forallb (fun c => negb (N.eqb c LBRACKET)) key = true ->
  forall j, j < length (pre ++ monitors_marker) ->
    rmatch (fieldRegex key) (skipn j ((pre ++ monitors_marker) ++ X)) = [].
Proof.
  intros Hq Hkey j Hj.
  destruct (rmatch (fieldRegex key) _) as [|[n c] l] eqn:E; [reflexivity | exfalso].
  assert (Hin : In (n, c) (rmatch (fieldRegex key)
                  (skipn j ((pre ++ monitors_marker) ++ X)))) by (rewrite E; now left).
  apply rmatch_Matches, fieldRegex_shape in Hin.
  destruct Hin as (ws & q1 & v & q2 & rest & Hs & Hws & Hq1 & _).
  set (Q := pre ++ monitors_marker) in *.
  assert (HQ : length Q = length pre + 11) by (unfold Q; rewrite length_app; reflexivity).
  set (d := length (key ++ ws)).
  assert (Hd : nth_error (Q ++ X) (j + d) = Some q1).
  { rewrite <- nth_error_skipn, Hs, app_assoc.
    unfold d. rewrite nth_error_app2 by lia. now rewrite Nat.sub_diag. }
  destruct (Nat.lt_ge_cases (j + d) (length Q)) as [Hlt | Hge].
  - rewrite nth_error_app1 in Hd by assumption.
    destruct (@before_array_nth pre _ _ Hq Hd) as [Hc _]. congruence.
  - assert (Hb : nth_error (key ++ ws) (length Q - 1 - j) = Some LBRACKET).
    { assert (Hb' : nth_error (skipn j (Q ++ X)) (length Q - 1 - j) = Some LBRACKET).
      { rewrite nth_error_skipn. replace (j + (length Q - 1 - j)) with (length pre + 10) by lia.
        rewrite nth_error_app1 by lia. unfold Q.
        rewrite nth_error_app2 by lia. now replace (length pre + 10 - length pre) with 10 by lia. }
      rewrite Hs, app_assoc in Hb'. rewrite nth_error_app1 in Hb' by (fold d; lia).
      exact Hb'. }
    apply nth_error_In in Hb. apply in_app_iff in Hb as [Hb | Hb].
    + rewrite forallb_forall in Hkey. apply Hkey in Hb. discriminate Hb.
    + rewrite forallb_forall in Hws. apply Hws in Hb. discriminate Hb.
Qed.

(** ** Nesting of the declared records *)

Lemma nested_app a b : nested a -> nested b -> nested (a ++ b).
Proof.
  induction 1 as [|c a Hl Hr Ha IH|a a' Ha IHa Ha' IHa']; intros Hb; cbn [app].
  - assumption.
  - apply nested_char; auto.
  - rewrite <- app_assoc. cbn [app]. apply nested_array; auto.
Qed.

Lemma declare_nested mon : simple_monitor mon = true -> nested (declare mon).
Proof.
  intros Hm. unfold simple_monitor in Hm. apply andb_true_iff in Hm as [Hi Hn].
  apply simple_nested in Hi, Hn. unfold declare.
  assert (Hplain : forall s, forallb (fun c => negb (N.eqb c LBRACKET) && negb (N.eqb c RBRACKET)) s = true
                             -> nested s).
  { induction s as [|c s IH]; intros H; [constructor|].
    cbn [forallb] in H. apply andb_true_iff in H as [Hc Hs].
    apply andb_true_iff in Hc as [Hl Hr]. apply negb_true_iff, N.eqb_neq in Hl, Hr.
    constructor; auto. }
  apply nested_app; [now apply Hplain|].
  apply nested_app; [assumption|].
  apply nested_app; [now apply Hplain|].
  apply nested_app; [assumption|].
  change (js "', expectedCodes: [200] }, ")
    with (js "', expectedCodes: " ++ LBRACKET :: js "200" ++ RBRACKET :: js " }, ").
  apply nested_app; [now apply Hplain|].
  apply nested_array; now apply Hplain.
Qed.

Lemma body_nested mons :
  forallb simple_monitor mons = true -> nested (concat (map declare mons)).
Proof.
  induction mons as [|mon mons IH]; intros H; [constructor|].
  cbn [forallb] in H. apply andb_true_iff in H as [Hm Hs]. cbn [map concat].
  apply nested_app; [now apply declare_nested | now apply IH].
Qed.

Lemma filter_all (A : Type) (f : A -> bool) (l : list A) :
  Forall (fun x => f x = true) l -> filter f l = l.
Proof. induction 1; cbn; [reflexivity|]. now rewrite H, IHForall. Qed.

Lemma filter_none (A : Type) (f : A -> bool) (l : list A) :
  Forall (fun x => f x = false) l -> filter f l = [].
Proof. induction 1; cbn; [reflexivity|]. now rewrite H. Qed.

(** The matches of a field pattern over a declared configuration that lie
    in the monitors region are those of the records, in order. *)
Lemma region_matches key (field : monitor -> str) off txt pre mons rest :
  (forall mon rest i, simple_monitor mon = true ->
     matchAll_from (fieldRegex key) (declare mon ++ rest) i 0
     = MkMatch (i + off mon) (txt mon) [(1, field mon)]
       :: matchAll_from (fieldRegex key) rest (i + length (declare mon)) 0) ->
  (forall mon, off mon < length (declare mon)) ->
  forallb (fun c => negb (N.eqb c LBRACKET)) key = true ->
  quiet pre = true -> forallb simple_monitor mons = true ->
  let startPos := Z.of_nat (length pre) in
  let endPos := Z.of_nat (length pre + length monitors_marker
                          + length (concat (map declare mons))) in
  map captured (filter (in_monitors startPos endPos)
                  (matchAll (fieldRegex key) (config_of pre mons rest)))
  = map field mons.
Proof.
  intros Hstep Hoff Hkey Hq Hs startPos endPos.
  unfold matchAll, config_of. rewrite app_assoc.
  rewrite matchAll_from_skip by (now apply no_field_before).
  destruct (@matchAll_records (fieldRegex key) field off txt Hstep Hoff mons
              (RBRACKET :: rest) (0 + length (pre ++ monitors_marker)) Hs)
    as (L & -> & Hcap & Hidx).
  rewrite filter_app, filter_all, filter_none, app_nil_r; [exact Hcap | |].
  - apply Forall_forall. intros m Hin. apply matchAll_from_index in Hin.
    unfold in_monitors, endPos. rewrite length_app in Hin.
    apply andb_false_iff. right. apply Z.ltb_ge. lia.
  - eapply Forall_impl; [|exact Hidx]. cbn beta. intros m Hm.
    rewrite length_app in Hm. change (length monitors_marker) with 11 in *.
    unfold in_monitors, startPos, endPos. apply andb_true_iff. split.
    + apply Z.gtb_lt. lia.
    + apply Z.ltb_lt. lia.
Qed.

(** A declared configuration gives back its monitors, in order. *)
Lemma declared_monitors_extracted pre mons rest :
  quiet pre = true -> forallb simple_monitor mons = true ->
  extract_from (config_of pre mons rest) = mons.
Proof.
  intros Hq Hs.
  assert (Hstart : monitorsStartPos (config_of pre mons rest) = Z.of_nat (length pre)).
  { unfold monitorsStartPos, indexOf, config_of. now rewrite indexOf_quiet. }
  pose proof (@monitorsEndPos_nested pre (concat (map declare mons)) rest Hstart
                (body_nested _ Hs)) as Hend.
  fold (config_of pre mons rest) in Hend.
  rewrite extract_from_region by (rewrite ?Hstart, ?Hend; lia).
  rewrite Hstart, Hend, pair_up_combine. apply pair_declared.
  - apply (@region_matches (js "id:") id (fun _ => 2) id_field); auto.
    + intros. now apply matchAll_id_record.
    + intros mon. rewrite declare_id_view, !length_app. cbn [length]. simpl. lia.
  - apply (@region_matches (js "name:") name (fun mon => 10 + length (id mon)) name_field);
      auto.
    + intros. now apply matchAll_name_record.
    + intros mon. rewrite declare_name_view, !length_app. simpl. lia.
Qed.

(** ** The claims *)

(** C7. The rendered options block is one two-line record per entry (a label
    made of the id and the name, and the id as value), in the order of the
    collection and joined with single line feeds, followed by exactly one
    trailing record for all monitors whose value is [all]; a collection of
    two entries renders three records. *)
Theorem allOptions_layout :
  (forall m ms, allOptions (m :: ms)
                = join [LF] (map render_option (m :: ms) ++ [all_monitors_option]))
  /\ allOptions [] = LF :: all_monitors_option
  /\ (forall ms, length (map render_option ms ++ [all_monitors_option]) = S (length ms))
  /\ (forall m1 m2, allOptions [m1; m2]
        = render_option m1 ++ [LF] ++ render_option m2 ++ [LF] ++ all_monitors_option)
  /\ (forall mon, render_option mon
        = (js "        - label: '" ++ id mon ++ js " - " ++ name mon ++ js "'")
          ++ [LF] ++ (js "          value: '" ++ id mon ++ js "'"))
  /\ all_monitors_option
     = js "        - label: 'All monitors'" ++ [LF] ++ js "          value: 'all'".
Proof.
  split; [|split; [|split; [|split; [|split]]]].
  - intros m ms. unfold allOptions, monitorOptions.
    change (map render_option (m :: ms)) with (render_option m :: map render_option ms).
    now rewrite join_snoc.
  - reflexivity.
  - intros ms. rewrite length_app, length_map. simpl. lia.
  - intros m1 m2. unfold allOptions, monitorOptions. cbn [map join].
    now rewrite <- !app_assoc.
  - intros mon. unfold render_option. now rewrite <- !app_assoc.
  - reflexivity.
Qed.

(** C10. [extractMonitorIds] hands no exception to its caller: when reading
    the configuration throws (the file is absent or unreadable) the error is
    caught and the result is the empty sequence, the same result as for a
    readable configuration that declares no monitors. *)
Theorem extractMonitorIds_catches :
  forall st,
    (config_file st = Absent \/ config_file st = Unreadable ->
     extractMonitorIds_body st = Throw /\ extractMonitorIds st = [])
    /\ (extractMonitorIds_body st = Throw -> extractMonitorIds st = [])
    /\ (config_file st = File [] -> extractMonitorIds st = []).
Proof.
  intros st. unfold extractMonitorIds, extractMonitorIds_body.
  split; [|split].
  - intros [-> | ->]; split; reflexivity.
  - intros ->. reflexivity.
  - intros ->. reflexivity.
Qed.

Lemma extractMonitorIds_catches_witness :
  extractMonitorIds_body (MkFs Absent (File []) true []) = Throw
  /\ extractMonitorIds (MkFs Absent (File []) true []) = []
  /\ extractMonitorIds (MkFs (File []) (File []) true []) = [].
Proof.
  pose proof (extractMonitorIds_catches (MkFs Absent (File []) true [])) as (H1 & _ & _).
  pose proof (extractMonitorIds_catches (MkFs (File []) (File []) true [])) as (_ & _ & H3).
  destruct (H1 (or_introl eq_refl)) as [Ha Hb].
  split; [exact Ha | split; [exact Hb | exact (H3 eq_refl)]].
Defined.

(** C5. A configuration text without the [monitors: [] marker, or without a
    closing bracket in balance after it, makes the Extractor return the
    empty sequence; the pipeline then exits with status 1 and leaves every
    file as it was, nothing being written. *)
Theorem missing_region_aborts st content :
  config_file st = File content ->
  (forall a b, content <> a ++ monitors_marker ++ b) \/
  (forall k, ~ closes_at
       (skipn (Z.to_nat (monitorsStartPos content + 11)) content) k) ->
  extractMonitorIds st = [] /\ main st = (1%Z, st).
Proof.
  intros Hc Hno.
  assert (E : extractMonitorIds st = []).
  { unfold extractMonitorIds, extractMonitorIds_body. rewrite Hc. simpl.
    unfold extract_from. destruct Hno as [Hno | Hno].
    - unfold monitorsStartPos at 1, indexOf.
      now rewrite (@indexOf_from_absent content monitors_marker 0%Z Hno).
    - assert (Hend : monitorsEndPos content = (-1)%Z).
      { unfold monitorsEndPos. change (Z.of_nat (length monitors_marker)) with 11%Z.
        match goal with |- ?x = _ => destruct (Z.eq_dec x (-1)) as [E | E] end;
          [exact E|].
        apply find_closing_found in E. destruct E as (k & Hk & Hcnt).
        destruct (Hno k). split; [assumption | lia]. }
      rewrite Hend. now rewrite orb_true_r. }
  split; [exact E|]. unfold main. now rewrite E.
Qed.

Lemma missing_region_aborts_witness :
  extractMonitorIds (MkFs (File (js "const workerConfig = {}")) (File []) true []) = []
  /\ main (MkFs (File (js "const workerConfig = {}")) (File []) true [])
     = (1%Z, MkFs (File (js "const workerConfig = {}")) (File []) true []).
Proof.
  apply (@missing_region_aborts _ (js "const workerConfig = {}")); [reflexivity|].
  right. intros k [Hk _].
  do 24 (destruct k as [|k]; [discriminate Hk|]). destruct k; discriminate Hk.
Defined.

(** C3. When the monitors region is found, the Extractor emits as many
    entries as the shorter of the two filtered match lists (the id-matches
    and the name-matches whose offset lies strictly between the start and
    the end of the region); the i-th entry pairs the i-th filtered id-match
    with the i-th filtered name-match, and the surplus of the longer list
    is dropped. *)
Theorem extracted_count content :
  monitorsStartPos content <> (-1)%Z ->
  monitorsEndPos content <> (-1)%Z ->
  let inside (m : rmatch_result) :=
    (monitorsStartPos content <? Z.of_nat (index m))%Z
    && (Z.of_nat (index m) <? monitorsEndPos content)%Z in
  let ids := filter inside (matchAll idRegex content) in
  let names := filter inside (matchAll nameRegex content) in
  length (extract_from content) = Nat.min (length ids) (length names)
  /\ extract_from content = map entry_of (combine ids names)
  /\ forall i, i < Nat.min (length ids) (length names) ->
       nth_error (extract_from content) i
       = Some (MkMonitor (group 1 (groups (nth i ids no_match)))
                         (group 1 (groups (nth i names no_match)))).
Proof.
  intros Hs He inside ids names.
  assert (E : extract_from content = pair_up ids names).
  { rewrite extract_from_region by assumption.
    unfold ids, names. f_equal; apply filter_ext; intros m;
      unfold in_monitors, inside; now rewrite Z.gtb_ltb. }
  rewrite E. split; [|split].
  - unfold pair_up. now rewrite length_map, length_seq.
  - apply pair_up_combine.
  - intros i Hi. unfold pair_up.
    rewrite nth_error_map, nth_error_seq.
    destruct (Nat.ltb_spec i (Nat.min (length ids) (length names))) as [_ | ?]; [|lia].
    reflexivity.
Qed.

Lemma extracted_count_witness :
  extract_from (js "monitors: [ { id: 'a', name: 'b' }, { id: 'c' } ]")
  = [MkMonitor (js "a") (js "b")].
Proof.
  destruct (@extracted_count (js "monitors: [ { id: 'a', name: 'b' }, { id: 'c' } ]"))
    as (_ & H & _); [vm_compute; discriminate | vm_compute; discriminate |].
  rewrite H. vm_compute. reflexivity.
Defined.

(** C4. The closing scan starts just after the opening bracket of the
    marker with depth zero, goes one level deeper at every opening bracket
    and one level up at every closing bracket above depth zero, and stops at
    the closing bracket met at depth zero.  Properly nested brackets inside
    the monitor records therefore never end the region early: the region
    ends at the bracket that closes the array, and the entries are counted
    over the id-matches and name-matches of the whole array body.  A
    configuration that declares N monitors with simple ids and names, each
    record holding the inline array [expectedCodes: [200]], gives back
    these N monitors in order.  On the configuration of the repository,
    whose first monitor has that inline array (closed at offset 2508), the
    region ends at the bracket of line 87 (offset 3993) and the two declared
    monitors are extracted. *)
Theorem nested_fields_do_not_end_region :
  (forall pre body rest,
     let content := pre ++ monitors_marker ++ body ++ RBRACKET :: rest in
     let array_end := length pre + length monitors_marker + length body in
     let inside (m : rmatch_result) :=
       (length pre <? index m) && (index m <? array_end) in
     monitorsStartPos content = Z.of_nat (length pre) ->
     nested body ->
     monitorsEndPos content = Z.of_nat array_end
     /\ length (extract_from content)
        = Nat.min (length (filter inside (matchAll idRegex content)))
                  (length (filter inside (matchAll nameRegex content))))
  /\ (forall pre mons rest,
       quiet pre = true -> forallb simple_monitor mons = true ->
       extract_from (config_of pre mons rest) = mons
       /\ length (extract_from (config_of pre mons rest)) = length mons)
  /\ monitorsStartPos uptime_config = 1605%Z
  /\ monitorsEndPos uptime_config = 3993%Z
  /\ nth_error uptime_config 2508 = Some RBRACKET
  /\ extract_from uptime_config
     = [MkMonitor (js "foo_monitor") (js "My API Monitor");
        MkMonitor (js "test_tcp_monitor") (js "Example TCP Monitor")].
Proof.
  split; [|split; [|vm_compute; repeat split; reflexivity]].
  - intros pre body rest content array_end inside Hs Hn.
    pose proof (@monitorsEndPos_nested pre body rest Hs Hn) as He.
    fold content array_end in He. split; [exact He|].
    rewrite extract_from_region by (rewrite ?Hs, ?He; lia).
    unfold pair_up. rewrite length_map, length_seq, Hs, He.
    f_equal; f_equal; apply filter_ext; intros m; unfold in_monitors, inside;
      rewrite Z.gtb_ltb;
      (destruct (Nat.ltb_spec (length pre) (index m));
       destruct (Z.ltb_spec (Z.of_nat (length pre)) (Z.of_nat (index m))); try lia);
      (destruct (Nat.ltb_spec (index m) array_end);
       destruct (Z.ltb_spec (Z.of_nat (index m)) (Z.of_nat array_end)); try lia);
      reflexivity.
  - intros pre mons rest Hq Hs.
    rewrite (@declared_monitors_extracted pre mons rest Hq Hs). now split.
Qed.

Lemma nested_fields_do_not_end_region_witness :
  monitorsEndPos (js "const c = { " ++ monitors_marker
                  ++ js " { id: 'a', codes: [200] } " ++ RBRACKET :: js " }")
  = 50%Z
  /\ extract_from (config_of (js "const c = { ")
                     [MkMonitor (js "a") (js "A"); MkMonitor (js "b") (js "B")]
                     (js " }"))
     = [MkMonitor (js "a") (js "A"); MkMonitor (js "b") (js "B")].
Proof.
  destruct nested_fields_do_not_end_region as (Hscan & Hdeclared & _).
  split.
  - apply (Hscan (js "const c = { ") (js " { id: 'a', codes: [200] } ") (js " }")).
    + vm_compute. reflexivity.
    + change (js " { id: 'a', codes: [200] } ")
        with (js " { id: 'a', codes: " ++ LBRACKET :: js "200" ++ RBRACKET :: js " } ").
      repeat (apply nested_char; [discriminate | discriminate |]).
      apply nested_array; repeat (apply nested_char; [discriminate | discriminate |]);
        apply nested_nil.
  - apply Hdeclared; reflexivity.
Defined.

(** When the template holds no match of the options pattern, [replace]
    returns the text as it is, a writable template file is written back with
    that same text and [updateIssueTemplate] returns [true]; after an
    extraction that found a monitor, [main] ends with status 0. *)
Lemma unmatched_template_not_detected ms st t :
  template_file st = File t ->
  search optionsRegex t 0 = None ->
  template_writable st = true ->
  patch t ms = t
  /\ updateIssueTemplate ms st
     = (true, MkFs (config_file st) (File t) true (t :: written st))
  /\ (extractMonitorIds st <> [] ->
      main st = (0%Z, MkFs (config_file st) (File t) true (t :: written st))).
Proof.
  intros Ht Hs Hw.
  assert (Hp : forall l, patch t l = t) by (intros l; unfold patch, replace; now rewrite Hs).
  assert (Hu : forall l, updateIssueTemplate l st
             = (true, MkFs (config_file st) (File t) true (t :: written st))).
  { intros l. unfold updateIssueTemplate, writeFileSync. rewrite Ht, Hw. simpl.
    now rewrite Hp. }
  split; [apply Hp | split; [apply Hu|]].
  intros Hne. unfold main. rewrite Hu.
  destruct (extractMonitorIds st); [contradiction | reflexivity].
Qed.

(** C1 does not hold of the code.  On a configuration declaring one monitor
    and a readable, writable template without an options list, the options
    pattern has no match, yet [updateIssueTemplate] writes the text back as
    it was and returns [true], and [main] ends with status 0: the missing
    target is not signalled.  The neighbouring failure path is signalled:
    with the template file absent [main] ends with status 1 and writes
    nothing. *)
Theorem unmatched_template_reports_success :
  let st := MkFs (File small_config) (File plain_template) true [] in
  search optionsRegex plain_template 0 = None
  /\ extractMonitorIds st = [MkMonitor (js "a") (js "b")]
  /\ updateIssueTemplate (extractMonitorIds st) st
     = (true, MkFs (File small_config) (File plain_template) true [plain_template])
  /\ main st
     = (0%Z, MkFs (File small_config) (File plain_template) true [plain_template])
  /\ main (MkFs (File small_config) Absent true [])
     = (1%Z, MkFs (File small_config) Absent true []).
Proof.
  intros st.
  assert (Hs : search optionsRegex plain_template 0 = None) by (vm_compute; reflexivity).
  assert (He : extractMonitorIds st = [MkMonitor (js "a") (js "b")])
    by (vm_compute; reflexivity).
  destruct (@unmatched_template_not_detected (extractMonitorIds st) st plain_template
              eq_refl Hs eq_refl) as (_ & Hu & Hm).
  split; [exact Hs|]. split; [exact He|]. split; [exact Hu|].
  split; [apply Hm; rewrite He; discriminate | vm_compute; reflexivity].
Qed.

(** C6. When the options pattern matches, the patch replaces only the
    middle of the matched region: the text before the match and the text
    after it are kept, and so are the [options:] marker with its white space
    and line feed, and the terminator (a blank line or the start of the next
    field). *)
Theorem patch_frame t ms mt :
  search optionsRegex t 0 = Some mt ->
  exists w g2 g3 X,
    forallb cls_space w = true
    /\ (g3 = [LF; LF] \/ g3 = LF :: js "  - type:")
    /\ matched mt = (js "options:" ++ w ++ [LF]) ++ g2 ++ g3
    /\ t = firstn (index mt) t ++ (js "options:" ++ w ++ [LF]) ++ g2 ++ g3
           ++ skipn (index mt + length (matched mt)) t
    /\ patch t ms = firstn (index mt) t ++ (js "options:" ++ w ++ [LF]) ++ X ++ g3
                    ++ skipn (index mt + length (matched mt)) t.
Proof.
  intros Hs. destruct (@search_options t mt Hs) as (w & g2 & g3 & Hw & Ht & Hm & Hg & _).
  destruct (@patch_found t ms mt w g2 g3 Hs Hg) as (X & HX & _).
  exists w, g2, g3, X. repeat (split; [assumption|]). split; [|exact HX].
  rewrite (@search_split optionsRegex t mt Hs) at 1. rewrite Hm. now rewrite <- !app_assoc.
Qed.

Lemma patch_frame_witness :
  exists mt, search optionsRegex two_dropdowns 0 = Some mt /\
  exists w g2 g3 X,
    forallb cls_space w = true
    /\ (g3 = [LF; LF] \/ g3 = LF :: js "  - type:")
    /\ matched mt = (js "options:" ++ w ++ [LF]) ++ g2 ++ g3
    /\ two_dropdowns
       = firstn (index mt) two_dropdowns ++ (js "options:" ++ w ++ [LF]) ++ g2 ++ g3
         ++ skipn (index mt + length (matched mt)) two_dropdowns
    /\ patch two_dropdowns [MkMonitor (js "a") (js "b")]
       = firstn (index mt) two_dropdowns ++ (js "options:" ++ w ++ [LF]) ++ X ++ g3
         ++ skipn (index mt + length (matched mt)) two_dropdowns.
Proof.
  eexists. split; [vm_compute; reflexivity|].
  apply patch_frame. vm_compute. reflexivity.
Defined.

(** C9 (as the code has it).  The patch rewrites the first match of the
    options pattern and nothing else: the text before the match and the text
    from its end onward are kept.  So the text from any offset at or after
    the end of the first match is kept as it is, and every later occurrence
    that a global scan of the pattern lists is such an occurrence: it starts
    at or after the end of the first match and the text from it onward is
    unchanged.  An occurrence that starts inside the first match lies in the
    replaced region. *)
Theorem later_occurrences_untouched t ms m1 :
  search optionsRegex t 0 = Some m1 ->
  (exists X, patch t ms = firstn (index m1) t ++ X
                          ++ skipn (index m1 + length (matched m1)) t)
  /\ (forall q, index m1 + length (matched m1) <= q ->
        ends_with (skipn q t) (patch t ms))
  /\ exists later,
       matchAll optionsRegex t = m1 :: later
       /\ forall m, In m later ->
            index m1 + length (matched m1) <= index m
            /\ occurs_at optionsRegex t (index m)
            /\ ends_with (skipn (index m) t) (patch t ms).
Proof.
  intros Hs.
  destruct (@search_options t m1 Hs) as (w & g2 & g3 & _ & _ & _ & Hg & _).
  destruct (@patch_found t ms m1 w g2 g3 Hs Hg) as (X & HX & _).
  remember (index m1 + length (matched m1)) as e eqn:He.
  assert (Hp : exists X', patch t ms = firstn (index m1) t ++ X' ++ skipn e t).
  { exists ((js "options:" ++ w ++ [LF]) ++ X ++ g3). rewrite HX.
    now rewrite <- !app_assoc. }
  split; [exact Hp|].
  assert (Hq : forall q, e <= q -> ends_with (skipn q t) (patch t ms)).
  { intros q Hle. destruct Hp as [X' ->].
    exists (firstn (index m1) t ++ X' ++ firstn (q - e) (skipn e t)).
    rewrite <- !app_assoc. do 2 f_equal.
    rewrite <- (firstn_skipn (q - e) (skipn e t)) at 1. f_equal.
    rewrite <- skipn_add. f_equal. lia. }
  split; [exact Hq|].
  destruct (@search_matchAll_from optionsRegex t 0 m1 Hs) as [later Hall].
  exists later. split; [exact Hall|]. intros m Hin.
  destruct (@matchAll_from_head optionsRegex t 0 m1 later Hall) as [_ Hlater].
  specialize (Hlater m Hin). rewrite <- He in Hlater.
  split; [exact Hlater|]. split; [|now apply Hq].
  apply matchAll_occurs. unfold matchAll. rewrite Hall. now right.
Qed.

Lemma later_occurrences_untouched_witness :
  ends_with (skipn 111 two_dropdowns)
            (patch two_dropdowns [MkMonitor (js "a") (js "b")]).
Proof.
  refine (proj1 (proj2 (@later_occurrences_untouched two_dropdowns
            [MkMonitor (js "a") (js "b")]
            (MkMatch 47 (firstn 32 (skipn 47 two_dropdowns))
               [(1, firstn 9 (skipn 47 two_dropdowns));
                (2, firstn 13 (skipn 56 two_dropdowns));
                (3, firstn 10 (skipn 69 two_dropdowns))]) _)) 111 _).
  - vm_compute. reflexivity.
  - vm_compute. lia.
Defined.

(** C9 as stated fails.  In a template whose fields start at the left
    margin the first options list is not closed before the second one opens:
    the pattern matches at offset 41 over 91 code units and also at offset
    97, inside that match.  The patch replaces the whole first match, and
    the text from offset 97 onward is not kept. *)
Lemma overlapping_occurrence_is_replaced :
  let ms := [MkMonitor (js "a") (js "b")] in
  option_map (fun m => (index m, length (matched m)))
             (search optionsRegex flush_dropdowns 0) = Some (41, 91)
  /\ occurs_at optionsRegex flush_dropdowns 97
  /\ ~ ends_with (skipn 97 flush_dropdowns) (patch flush_dropdowns ms).
Proof.
  intros ms. split; [vm_compute; reflexivity|]. split.
  - unfold occurs_at. vm_compute. discriminate.
  - intros H. apply ends_with_rev in H. vm_compute in H. discriminate.
Qed.

(** C2 (as the code has it).  For a collection that is not empty and whose
    ids and names hold neither a line feed nor a dollar sign, patching twice
    with the same collection gives the text of patching once. *)
Theorem patch_idempotent t m ms :
  forallb tame_monitor (m :: ms) = true ->
  patch (patch t (m :: ms)) (m :: ms) = patch t (m :: ms).
Proof.
  intros Htame. set (mons := m :: ms) in *.
  destruct (search optionsRegex t 0) as [mt|] eqn:Hs.
  2:{ assert (E : patch t mons = t) by (unfold patch, replace; now rewrite Hs).
      now rewrite !E. }
  destruct (@search_options t mt Hs) as (w & g2 & g3 & Hw & Ht & Hm & Hg & Hk & Hj).
  destruct (@patch_found t mons mt w g2 g3 Hs Hg) as (X & HX & HXA).
  rewrite (HXA (allOptions_no_DOLLAR _ Htame)) in HX. clear X HXA.
  pose proof (@search_split optionsRegex t mt Hs) as Et.
  assert (Hpre : length (firstn (index mt) t) = index mt)
    by (rewrite length_firstn; lia).
  remember (firstn (index mt) t) as pre eqn:Ep in *.
  remember (skipn (index mt + length (matched mt)) t) as suf eqn:Esuf in *.
  clear Ep Esuf. rewrite Hm, <- !app_assoc in Et.
  set (g1 := js "options:" ++ w ++ [LF]) in *.
  set (A := allOptions mons) in *.
  assert (HA : indented A).
  { apply indented_tail with (c := LF). now apply allOptions_indented. }
  assert (Hs' : search optionsRegex (pre ++ g1 ++ A ++ g3 ++ suf) 0
                = Some (MkMatch (length pre) (g1 ++ A ++ g3) [(1, g1); (2, A); (3, g3)])).
  { pose proof (@hd_options_region w A g3 suf Hw Ht HA (allOptions_start m ms)) as Hh.
    fold g1 in Hh.
    rewrite (@search_intro optionsRegex (pre ++ g1 ++ A ++ g3 ++ suf) 0 (length pre)
               (length (g1 ++ A ++ g3)) [(1, g1); (2, A); (3, g3)]).
    - rewrite skipn_app_length. cbn [Nat.add]. do 2 f_equal.
      rewrite !app_assoc. rewrite firstn_app_length. now rewrite <- !app_assoc.
    - apply no_earlier with (g2 := g2); try assumption.
      intros j Hlt. rewrite <- !app_assoc. fold g1. rewrite <- Et. apply Hj. lia.
    - rewrite length_app. lia.
    - rewrite skipn_app_length. exact Hh. }
  rewrite HX.
  destruct (@patch_found _ mons _ w A g3 Hs' eq_refl) as (X & HX' & HXA).
  rewrite (HXA (allOptions_no_DOLLAR _ Htame)) in HX'. clear X HXA.
  cbn [index matched] in HX'. fold g1 A in HX'. rewrite HX'.
  rewrite firstn_app_length, skipn_add, skipn_app_length.
  replace (g1 ++ A ++ g3 ++ suf) with ((g1 ++ A ++ g3) ++ suf)
    by (now rewrite <- !app_assoc).
  rewrite skipn_app_length. now rewrite <- !app_assoc.
Qed.

Lemma patch_idempotent_witness :
  patch (patch two_dropdowns [MkMonitor (js "foo_monitor") (js "My API Monitor")])
        [MkMonitor (js "foo_monitor") (js "My API Monitor")]
  = patch two_dropdowns [MkMonitor (js "foo_monitor") (js "My API Monitor")].
Proof. apply patch_idempotent. reflexivity. Defined.

(** C2 as stated fails: a second patch changes the text again for the empty
    collection, for a name holding a blank line, and for a name holding the
    replacement pattern [$2]. *)
Lemma patch_not_idempotent :
  patch (patch blank_line_template []) [] <> patch blank_line_template []
  /\ patch (patch blank_line_template [MkMonitor (js "a") (js "b" ++ [LF; LF] ++ js "c")])
            [MkMonitor (js "a") (js "b" ++ [LF; LF] ++ js "c")]
     <> patch blank_line_template [MkMonitor (js "a") (js "b" ++ [LF; LF] ++ js "c")]
  /\ patch (patch blank_line_template [MkMonitor (js "a") (js "$2")])
            [MkMonitor (js "a") (js "$2")]
     <> patch blank_line_template [MkMonitor (js "a") (js "$2")].
Proof. vm_compute. repeat split; discriminate. Qed.

(** C8 (as the code has it).  Every id-match and name-match is the key,
    optional white space, a quote character, the captured value and a quote
    character; either quote is any of the three quote characters, and the
    value is a non-empty run of code units that are no quote character,
    taken as written. *)
Theorem captured_between_quotes text m :
  In m (matchAll idRegex text) \/ In m (matchAll nameRegex text) ->
  exists key ws q1 v q2,
    (key = js "id:" \/ key = js "name:")
    /\ forallb cls_space ws = true
    /\ cls_quote q1 = true /\ cls_quote q2 = true
    /\ v <> [] /\ forallb cls_not_quote v = true
    /\ matched m = key ++ ws ++ q1 :: v ++ [q2]
    /\ group 1 (groups m) = v
    /\ exists rest, skipn (index m) text = matched m ++ rest.
Proof.
  assert (Hgen : forall key, In m (matchAll (fieldRegex key) text) ->
    exists ws q1 v q2,
      forallb cls_space ws = true
      /\ cls_quote q1 = true /\ cls_quote q2 = true
      /\ v <> [] /\ forallb cls_not_quote v = true
      /\ matched m = key ++ ws ++ q1 :: v ++ [q2]
      /\ group 1 (groups m) = v
      /\ exists rest, skipn (index m) text = matched m ++ rest).
  { intros key Hin. apply matchAll_from_sound in Hin.
    destruct Hin as (j & n & c & Hi & Hj & Hh & Hm & Hg). simpl in Hi. subst j.
    apply hd_error_In, rmatch_Matches, fieldRegex_shape in Hh.
    destruct Hh as (ws & q1 & v & q2 & rest & Hs & Hws & Hq1 & Hq2 & Hv & Hnq & Hn & Hc).
    exists ws, q1, v, q2. repeat (split; [assumption|]).
    assert (Em : matched m = key ++ ws ++ q1 :: v ++ [q2]).
    { rewrite Hm, Hs, Hn.
      replace (key ++ ws ++ q1 :: v ++ q2 :: rest)
        with ((key ++ ws ++ q1 :: v ++ [q2]) ++ rest)
        by (rewrite <- !app_assoc; cbn [app]; now rewrite <- !app_assoc).
      apply firstn_app_length. }
    split; [exact Em | split].
    - rewrite Hg, Hc. reflexivity.
    - exists rest. rewrite Em, Hs.
      rewrite <- !app_assoc; cbn [app]; now rewrite <- !app_assoc. }
  intros [H | H].
  - destruct (Hgen (js "id:") H) as (ws & q1 & v & q2 & Hrest).
    exists (js "id:"), ws, q1, v, q2. split; [now left | exact Hrest].
  - destruct (Hgen (js "name:") H) as (ws & q1 & v & q2 & Hrest).
    exists (js "name:"), ws, q1, v, q2. split; [now right | exact Hrest].
Qed.

Lemma captured_between_quotes_witness :
  exists key ws q1 v q2,
    (key = js "id:" \/ key = js "name:")
    /\ forallb cls_space ws = true
    /\ cls_quote q1 = true /\ cls_quote q2 = true
    /\ v <> [] /\ forallb cls_not_quote v = true
    /\ js "id: 'a'" = key ++ ws ++ q1 :: v ++ [q2]
    /\ js "a" = v
    /\ exists rest, skipn 14 small_config = js "id: 'a'" ++ rest.
Proof.
  apply (@captured_between_quotes small_config
           (MkMatch 14 (js "id: 'a'") [(1, js "a")])).
  left. vm_compute. left. reflexivity.
Defined.

(** C8 as stated fails: a value opened with a single quote and closed with
    a double quote, or opened with a backtick and closed with a single
    quote, is captured all the same. *)
Lemma mismatched_quotes_accepted :
  extract_from mixed_quotes = [MkMonitor (js "a") (js "b")]
  /\ matchAll idRegex mixed_quotes
     = [MkMatch 14 (js "id: " ++ [39%N] ++ js "a" ++ [34%N]) [(1, js "a")]]
  /\ matchAll nameRegex mixed_quotes
     = [MkMatch 23 (js "name: " ++ [96%N] ++ js "b" ++ [39%N]) [(1, js "b")]].
Proof. vm_compute. repeat split. Qed.
(** * Further properties of the script *)


(** ** The outcomes of the Patcher and of the pipeline *)

Lemma updateIssueTemplate_cases ms st :
  (exists t, template_file st = File t /\ template_writable st = true /\
     updateIssueTemplate ms st
     = (true, MkFs (config_file st) (File (patch t ms)) true (patch t ms :: written st)))
  \/ ((template_file st = Absent \/ template_file st = Unreadable
       \/ template_writable st = false)
      /\ updateIssueTemplate ms st = (false, st)).
Proof.
  unfold updateIssueTemplate, writeFileSync.
  destruct (template_file st) as [| |t] eqn:Et; cbn.
  - right. split; [now left | reflexivity].
  - right. split; [right; now left | reflexivity].
  - destruct (template_writable st) eqn:Ew; cbn.
    + left. exists t. repeat split.
    + right. split; [right; now right | reflexivity].
Qed.

(** X1. [updateIssueTemplate] returns [true] exactly when the template file
    is readable and writable; when it returns [false] (file absent,
    unreadable or not writable) no file is touched, and when it succeeds the
    template holds the patched text, written once. *)
Theorem updateIssueTemplate_succeeds_iff ms st :
  (fst (updateIssueTemplate ms st) = true
   <-> (exists t, template_file st = File t) /\ template_writable st = true)
  /\ (fst (updateIssueTemplate ms st) = false -> snd (updateIssueTemplate ms st) = st)
  /\ (forall t, template_file st = File t -> template_writable st = true ->
      snd (updateIssueTemplate ms st)
      = MkFs (config_file st) (File (patch t ms)) true (patch t ms :: written st)).
Proof.
  destruct (updateIssueTemplate_cases ms st)
    as [(t & Et & Ew & ->) | (Hfail & ->)]; cbn [fst snd].
  - split; [|split].
    + split; [intros _; split; [now exists t | assumption] | reflexivity].
    + discriminate.
    + intros t' Et' _. rewrite Et in Et'. injection Et' as <-. reflexivity.
  - split; [|split].
    + split; [discriminate|]. intros [[t Et] Ew].
      destruct Hfail as [H | [H | H]]; congruence.
    + reflexivity.
    + intros t Et Ew. destruct Hfail as [H | [H | H]]; congruence.
Qed.

Lemma updateIssueTemplate_succeeds_iff_witness :
  fst (updateIssueTemplate [MkMonitor (js "a") (js "b")]
         (MkFs (File small_config) (File two_dropdowns) true [])) = true
  /\ snd (updateIssueTemplate [MkMonitor (js "a") (js "b")]
            (MkFs (File small_config) (File two_dropdowns) true []))
     = MkFs (File small_config)
            (File (patch two_dropdowns [MkMonitor (js "a") (js "b")])) true
            [patch two_dropdowns [MkMonitor (js "a") (js "b")]]
  /\ snd (updateIssueTemplate [MkMonitor (js "a") (js "b")]
            (MkFs (File small_config) Absent true []))
     = MkFs (File small_config) Absent true [].
Proof.
  destruct (updateIssueTemplate_succeeds_iff [MkMonitor (js "a") (js "b")]
              (MkFs (File small_config) (File two_dropdowns) true []))
    as (Hiff & _ & Hsnd).
  destruct (updateIssueTemplate_succeeds_iff [MkMonitor (js "a") (js "b")]
              (MkFs (File small_config) Absent true []))
    as (_ & Hfail & _).
  split; [|split].
  - apply Hiff. split; [eexists; reflexivity | reflexivity].
  - apply Hsnd; reflexivity.
  - apply Hfail. reflexivity.
Defined.

Lemma main_cases st :
  main st = (1%Z, st)
  \/ (extractMonitorIds st <> [] /\
      exists t, template_file st = File t /\ template_writable st = true /\
        main st
        = (0%Z, MkFs (config_file st) (File (patch t (extractMonitorIds st))) true
                     (patch t (extractMonitorIds st) :: written st))).
Proof.
  unfold main. destruct (extractMonitorIds st) as [|mon mons] eqn:Ex; cbn [length Nat.eqb].
  - now left.
  - destruct (updateIssueTemplate_cases (mon :: mons) st)
      as [(t & Et & Ew & ->) | (_ & ->)].
    + right. split; [discriminate|]. exists t. now repeat split.
    + now left.
Qed.

(** X2. The pipeline never changes the configuration file, and it has two
    outcomes only: status 1 with every file as it was and nothing written,
    or status 0 with a non-empty extraction and the template overwritten
    once with the patched text. *)
Theorem main_outcome st :
  config_file (snd (main st)) = config_file st
  /\ ((fst (main st) = 1%Z /\ snd (main st) = st)
      \/ (fst (main st) = 0%Z /\ extractMonitorIds st <> [] /\
          exists t, template_file st = File t /\ template_writable st = true /\
            snd (main st)
            = MkFs (config_file st) (File (patch t (extractMonitorIds st))) true
                   (patch t (extractMonitorIds st) :: written st))).
Proof.
  destruct (main_cases st) as [-> | (Hne & t & Et & Ew & ->)]; cbn [fst snd].
  - split; [reflexivity | left; now split].
  - split; [reflexivity | right]. split; [reflexivity | split; [exact Hne|]].
    exists t. now repeat split.
Qed.

(** ** [indexOf]: the first occurrence *)

Lemma indexOf_from_spec s pat : forall i,
  (indexOf_from s pat i = (-1)%Z /\
   forall j, j <= length s -> starts_with pat (skipn j s) = false)
  \/ exists k, indexOf_from s pat i = (i + Z.of_nat k)%Z /\ k <= length s /\
       starts_with pat (skipn k s) = true /\
       forall j, j < k -> starts_with pat (skipn j s) = false.
Proof.
  induction s as [|c s IH]; intros i; cbn [indexOf_from].
  - destruct (starts_with pat []) eqn:E.
    + right. exists 0. cbn. repeat split; auto; try lia.
    + left. split; [reflexivity|]. intros j Hj. cbn in Hj.
      assert (j = 0) by lia. now subst.
  - destruct (starts_with pat (c :: s)) eqn:E.
    + right. exists 0. cbn [skipn length]. repeat split; auto; try lia.
    + destruct (IH (i + 1)%Z) as [[Hm Hno] | (k & Hk & Hlen & Hat & Hbefore)].
      * left. split; [exact Hm|]. intros [|j] Hj; [exact E|].
        cbn [skipn]. apply Hno. cbn in Hj. lia.
      * right. exists (S k). cbn [skipn length]. repeat split; auto; try lia.
        intros [|j] Hj; [exact E|]. cbn [skipn]. apply Hbefore. lia.
Qed.

(** X3. [monitorsStartPos] is [-1] exactly when the marker [monitors: []
    occurs nowhere in the text, and otherwise the offset of its first
    occurrence. *)
Theorem monitorsStartPos_first content :
  (monitorsStartPos content = (-1)%Z
   <-> forall a b, content <> a ++ monitors_marker ++ b)
  /\ (monitorsStartPos content <> (-1)%Z ->
      exists a b, content = a ++ monitors_marker ++ b
        /\ monitorsStartPos content = Z.of_nat (length a)
        /\ forall a' b', content = a' ++ monitors_marker ++ b' -> length a <= length a').
Proof.
  unfold monitorsStartPos, indexOf.
  destruct (indexOf_from_spec content monitors_marker 0)
    as [[Hm Hno] | (k & Hk & Hlen & Hat & Hbefore)].
  - rewrite Hm. split; [|congruence]. split; [|reflexivity].
    intros _ a b E.
    assert (Ha : length a <= length content) by (rewrite E, length_app; lia).
    specialize (Hno (length a) Ha). rewrite E, skipn_app_length in Hno.
    rewrite (proj2 (starts_with_app _ _)) in Hno by (now exists b). discriminate.
  - rewrite Hk. apply starts_with_app in Hat. destruct Hat as [b Hb].
    assert (E : content = firstn k content ++ monitors_marker ++ b).
    { rewrite <- Hb. symmetry. apply firstn_skipn. }
    split.
    + split; [lia|]. intros Hno. now destruct (Hno _ _ E).
    + intros _. exists (firstn k content), b.
      rewrite length_firstn, Nat.min_l by assumption.
      split; [exact E | split; [lia|]].
      intros a' b' E'. destruct (Nat.le_gt_cases k (length a')) as [H | H]; [exact H|].
      specialize (Hbefore _ H). rewrite E', skipn_app_length in Hbefore.
      rewrite (proj2 (starts_with_app _ _)) in Hbefore by (now exists b'). discriminate.
Qed.

Lemma monitorsStartPos_first_witness :
  (forall a b, plain_template <> a ++ monitors_marker ++ b)
  /\ exists a b, small_config = a ++ monitors_marker ++ b
       /\ monitorsStartPos small_config = Z.of_nat (length a)
       /\ forall a' b', small_config = a' ++ monitors_marker ++ b' ->
            length a <= length a'.
Proof.
  split.
  - apply (proj1 (proj1 (monitorsStartPos_first plain_template))). reflexivity.
  - apply (proj2 (monitorsStartPos_first small_config)). vm_compute. discriminate.
Defined.

(** ** The closing scan: the first closing bracket in balance *)

Lemma count_firstn_S c x s k :
  count c (firstn (S k) (x :: s))
  = ((if N.eqb x c then 1 else 0) + count c (firstn k s))%Z.
Proof. cbn [firstn]. apply count_cons. Qed.

(** A scan that stops has stopped on the first closing bracket in balance. *)
Lemma find_closing_least s : forall i d,
  (0 <= d)%Z ->
  find_closing s i d <> (-1)%Z ->
  exists k, find_closing s i d = (i + Z.of_nat k)%Z /\
    nth_error s k = Some RBRACKET /\
    (d + count LBRACKET (firstn k s) = count RBRACKET (firstn k s))%Z /\
    forall j, j < k -> nth_error s j = Some RBRACKET ->
      (d + count LBRACKET (firstn j s))%Z <> count RBRACKET (firstn j s).
Proof.
  induction s as [|c s IH]; intros i d Hd; cbn [find_closing]; [congruence|].
  assert (Hstep : forall d', (0 <= d')%Z ->
     (forall x y, d' + x = y <-> d + ((if N.eqb c LBRACKET then 1 else 0) + x)
                              = (if N.eqb c RBRACKET then 1 else 0) + y)%Z ->
     (N.eqb c RBRACKET = true -> d <> 0%Z) ->
     find_closing s (i + 1) d' <> (-1)%Z ->
     exists k, find_closing s (i + 1) d' = (i + Z.of_nat k)%Z /\
       nth_error (c :: s) k = Some RBRACKET /\
       (d + count LBRACKET (firstn k (c :: s)) = count RBRACKET (firstn k (c :: s)))%Z /\
       forall j, j < k -> nth_error (c :: s) j = Some RBRACKET ->
         (d + count LBRACKET (firstn j (c :: s)))%Z <> count RBRACKET (firstn j (c :: s))).
  { intros d' Hd' Hrel Hzero H. destruct (IH (i + 1)%Z d' Hd' H) as (k & Hk & Hnth & Hbal & Hmin).
    exists (S k). split; [lia | split; [exact Hnth | split]].
    - rewrite !count_firstn_S. now apply Hrel.
    - intros [|j] Hj Hj'.
      + cbn in Hj'. injection Hj' as ->. cbn [firstn]. unfold count. cbn.
        specialize (Hzero eq_refl). lia.
      + cbn [nth_error] in Hj'. rewrite !count_firstn_S. intros E.
        apply (Hmin j ltac:(lia) Hj'). now apply Hrel. }
  destruct (N.eqb_spec c RBRACKET) as [-> | Hr].
  - change (N.eqb RBRACKET LBRACKET) with false in *. cbv iota.
    destruct (Z.eqb_spec d 0) as [-> | Hd0].
    + intros _. exists 0. split; [lia | split; [reflexivity | split]].
      * reflexivity.
      * intros j Hj. lia.
    + apply Hstep; [lia | intros x y; lia | auto].
  - destruct (N.eqb_spec c LBRACKET) as [-> | Hl].
    + apply Hstep; [lia | intros x y; lia | discriminate].
    + apply Hstep; [lia | intros x y; lia | discriminate].
Qed.

Lemma find_closing_none s : forall i d,
  (0 <= i)%Z -> (0 <= d)%Z ->
  find_closing s i d = (-1)%Z ->
  forall k, nth_error s k = Some RBRACKET ->
    (d + count LBRACKET (firstn k s))%Z <> count RBRACKET (firstn k s).
Proof.
  induction s as [|c s IH]; intros i d Hi Hd H k Hk; [destruct k; discriminate|].
  cbn [find_closing] in H. destruct k as [|k].
  - cbn in Hk. injection Hk as ->.
    change (N.eqb RBRACKET LBRACKET) with false in H.
    change (N.eqb RBRACKET RBRACKET) with true in H. cbv iota in H.
    destruct (Z.eqb_spec d 0) as [-> | Hd0]; [lia|].
    cbn [firstn]. unfold count. cbn. lia.
  - cbn [nth_error] in Hk. rewrite !count_firstn_S.
    destruct (N.eqb_spec c RBRACKET) as [-> | Hr].
    + change (N.eqb RBRACKET LBRACKET) with false in *. cbv iota in *.
      destruct (Z.eqb_spec d 0) as [-> | Hd0]; [lia|].
      pose proof (IH (i + 1)%Z (d - 1)%Z ltac:(lia) ltac:(lia) H k Hk). lia.
    + destruct (N.eqb_spec c LBRACKET) as [-> | Hl].
      * pose proof (IH (i + 1)%Z (d + 1)%Z ltac:(lia) ltac:(lia) H k Hk). lia.
      * pose proof (IH (i + 1)%Z d ltac:(lia) ltac:(lia) H k Hk). lia.
Qed.

Lemma monitorsStartPos_lower content : (-1 <= monitorsStartPos content)%Z.
Proof.
  unfold monitorsStartPos, indexOf.
  destruct (indexOf_from_spec content monitors_marker 0) as [[-> _] | (k & -> & _)]; lia.
Qed.

(** X4. [monitorsEndPos] is [-1] exactly when no closing bracket in balance
    follows the start of the scan; otherwise it is the offset of the first
    such bracket, which lies after the marker and inside the text. *)
Theorem monitorsEndPos_first content :
  let startSearchPos := (monitorsStartPos content + 11)%Z in
  let scanned := skipn (Z.to_nat startSearchPos) content in
  (monitorsEndPos content = (-1)%Z <-> forall k, ~ closes_at scanned k)
  /\ (monitorsEndPos content <> (-1)%Z ->
      exists k, monitorsEndPos content = (startSearchPos + Z.of_nat k)%Z
        /\ closes_at scanned k
        /\ (forall j, j < k -> ~ closes_at scanned j)
        /\ (monitorsStartPos content < monitorsEndPos content
            < Z.of_nat (length content))%Z
        /\ nth_error content (Z.to_nat (monitorsEndPos content)) = Some RBRACKET).
Proof.
  intros startSearchPos scanned.
  pose proof (monitorsStartPos_lower content) as Hlow.
  assert (Hunfold : monitorsEndPos content = find_closing scanned startSearchPos 0)
    by reflexivity.
  assert (Hsome : monitorsEndPos content <> (-1)%Z ->
      exists k, monitorsEndPos content = (startSearchPos + Z.of_nat k)%Z
        /\ closes_at scanned k /\ (forall j, j < k -> ~ closes_at scanned j)).
  { rewrite Hunfold. intros H.
    destruct (@find_closing_least scanned startSearchPos 0%Z ltac:(lia) H)
      as (k & Hk & Hnth & Hbal & Hmin).
    exists k. split; [exact Hk | split; [split; [exact Hnth | lia]|]].
    intros j Hj [Hj1 Hj2]. apply (Hmin j Hj Hj1). lia. }
  split.
  - split.
    + intros H k [Hk Hbal]. rewrite Hunfold in H.
      apply (@find_closing_none scanned startSearchPos 0%Z ltac:(unfold startSearchPos; lia)
               ltac:(lia) H k Hk). lia.
    + intros Hno. destruct (Z.eq_dec (monitorsEndPos content) (-1)) as [E | E]; [exact E|].
      destruct (Hsome E) as (k & _ & Hc & _). now destruct (Hno k).
  - intros H. destruct (Hsome H) as (k & Hk & Hc & Hmin).
    exists k. split; [exact Hk | split; [exact Hc | split; [exact Hmin|]]].
    destruct Hc as [Hnth _].
    assert (Hlt : k < length scanned) by (apply nth_error_Some; congruence).
    unfold scanned in Hlt, Hnth. rewrite length_skipn in Hlt.
    rewrite nth_error_skipn in Hnth.
    split; [unfold startSearchPos in *; lia|].
    rewrite Hk. replace (Z.to_nat (startSearchPos + Z.of_nat k))
      with (Z.to_nat startSearchPos + k) by (unfold startSearchPos in *; lia).
    exact Hnth.
Qed.

Lemma monitorsEndPos_first_witness :
  exists k,
    monitorsEndPos small_config = (monitorsStartPos small_config + 11 + Z.of_nat k)%Z
    /\ closes_at (skipn (Z.to_nat (monitorsStartPos small_config + 11)) small_config) k
    /\ (forall j, j < k ->
        ~ closes_at (skipn (Z.to_nat (monitorsStartPos small_config + 11)) small_config) j)
    /\ (monitorsStartPos small_config < monitorsEndPos small_config
        < Z.of_nat (length small_config))%Z
    /\ nth_error small_config (Z.to_nat (monitorsEndPos small_config)) = Some RBRACKET.
Proof.
  apply (proj2 (monitorsEndPos_first small_config)). vm_compute. discriminate.
Defined.

(** ** The order of the matches *)

Lemma matchAll_from_follows r s : forall i k,
  StronglySorted follows (matchAll_from r s i k)
  /\ Forall (fun m => index m <= i + length s) (matchAll_from r s i k).
Proof.
  induction s as [|x s IH]; intros i k; cbn [matchAll_from].
  - destruct k; [|split; constructor].
    destruct (rmatch r []) as [|[n c] l]; [split; constructor|].
    split; repeat constructor. cbn. lia.
  - assert (Hrec : forall k', StronglySorted follows (matchAll_from r s (S i) k')
       /\ Forall (fun m => index m <= i + length (x :: s)) (matchAll_from r s (S i) k')).
    { intros k'. destruct (IH (S i) k') as [H1 H2]. split; [exact H1|].
      eapply Forall_impl; [|exact H2]. cbn. intros m Hm. lia. }
    destruct k as [|k]; [|apply Hrec].
    destruct (rmatch r (x :: s)) as [|[n c] l]; [apply Hrec|].
    destruct (Hrec (pred n)) as [H1 H2]. split.
    + constructor; [exact H1|]. apply Forall_forall. intros m Hin.
      apply matchAll_from_index in Hin. unfold follows. cbn [index matched].
      pose proof (firstn_le_length n (x :: s)) as Hl.
      destruct n; cbn [pred] in *; lia.
    + constructor; [cbn; lia | exact H2].
Qed.

(** ** Where the entries come from *)

Lemma field_match_value key text m :
  In m (matchAll (fieldRegex key) text) ->
  captured m <> [] /\ no_quote (captured m) = true.
Proof.
  intros Hin. apply matchAll_from_sound in Hin.
  destruct Hin as (j & n & c & _ & _ & Hh & _ & Hg).
  apply hd_error_In, rmatch_Matches, fieldRegex_shape in Hh.
  destruct Hh as (ws & q1 & v & q2 & rest & _ & _ & _ & _ & Hv & Hnq & _ & Hc).
  unfold captured. rewrite Hg, Hc. cbn. now split.
Qed.

(** X6. Every extracted entry comes from an id-match and a name-match that
    start strictly inside the monitors region; its id and its name are the
    captured values, both non-empty and free of quote characters. *)
Theorem extracted_entries_provenance content e :
  In e (extract_from content) ->
  exists mi mn,
    In mi (matchAll idRegex content) /\ In mn (matchAll nameRegex content)
    /\ (monitorsStartPos content < Z.of_nat (index mi) < monitorsEndPos content)%Z
    /\ (monitorsStartPos content < Z.of_nat (index mn) < monitorsEndPos content)%Z
    /\ id e = captured mi /\ name e = captured mn
    /\ id e <> [] /\ no_quote (id e) = true
    /\ name e <> [] /\ no_quote (name e) = true.
Proof.
  intros Hin.
  assert (Hfound : monitorsStartPos content <> (-1)%Z /\ monitorsEndPos content <> (-1)%Z).
  { unfold extract_from in Hin.
    destruct (Z.eqb_spec (monitorsStartPos content) (-1)) as [? | ?]; [destruct Hin|].
    destruct (Z.eqb_spec (monitorsEndPos content) (-1)) as [? | ?]; [destruct Hin|].
    now split. }
  destruct Hfound as [Hs He].
  rewrite extract_from_region, pair_up_combine in Hin by assumption.
  apply in_map_iff in Hin. destruct Hin as ([mi mn] & <- & Hc).
  pose proof (in_combine_l _ _ _ _ Hc) as Hi. pose proof (in_combine_r _ _ _ _ Hc) as Hn.
  apply filter_In in Hi, Hn. destruct Hi as [Hi Hri]. destruct Hn as [Hn Hrn].
  unfold in_monitors in Hri, Hrn. apply andb_true_iff in Hri, Hrn.
  destruct Hri as [Hri1 Hri2]. destruct Hrn as [Hrn1 Hrn2].
  apply Z.gtb_lt in Hri1, Hrn1. apply Z.ltb_lt in Hri2, Hrn2.
  destruct (@field_match_value (js "id:") content mi Hi) as [Hv1 Hq1].
  destruct (@field_match_value (js "name:") content mn Hn) as [Hv2 Hq2].
  exists mi, mn. cbn [entry_of id name fst snd]. fold (captured mi) (captured mn).
  repeat (split; [assumption || lia || reflexivity|]). assumption.
Qed.

Lemma extracted_entries_provenance_witness :
  exists mi mn,
    In mi (matchAll idRegex small_config) /\ In mn (matchAll nameRegex small_config)
    /\ (monitorsStartPos small_config < Z.of_nat (index mi)
        < monitorsEndPos small_config)%Z
    /\ (monitorsStartPos small_config < Z.of_nat (index mn)
        < monitorsEndPos small_config)%Z
    /\ js "a" = captured mi /\ js "b" = captured mn
    /\ js "a" <> [] /\ no_quote (js "a") = true
    /\ js "b" <> [] /\ no_quote (js "b") = true.
Proof.
  apply (@extracted_entries_provenance small_config (MkMonitor (js "a") (js "b"))).
  vm_compute. left. reflexivity.
Defined.

(** ** What the patch writes *)

(** X7. When the options pattern matches and the rendered block holds no
    dollar sign, the patched text is the text before the match, group 1,
    the rendered block, group 3 and the text after the match: the former
    option list (group 2) is dropped whole and nothing else changes. *)
Theorem patch_writes_block t ms mt :
  search optionsRegex t 0 = Some mt ->
  no_DOLLAR (allOptions ms) = true ->
  matched mt = group 1 (groups mt) ++ group 2 (groups mt) ++ group 3 (groups mt)
  /\ t = firstn (index mt) t ++ matched mt ++ skipn (index mt + length (matched mt)) t
  /\ patch t ms = firstn (index mt) t ++ group 1 (groups mt) ++ allOptions ms
                  ++ group 3 (groups mt) ++ skipn (index mt + length (matched mt)) t.
Proof.
  intros Hs Hd.
  destruct (@search_options t mt Hs) as (w & g2 & g3 & _ & _ & Hm & Hg & _).
  destruct (@patch_found t ms mt w g2 g3 Hs Hg) as (X & HX & HXA).
  rewrite (HXA Hd) in HX. rewrite Hg. cbn [group Nat.eqb].
  split; [exact Hm | split; [apply (search_split _ _ Hs) | exact HX]].
Qed.

Lemma patch_writes_block_witness :
  exists mt, search optionsRegex two_dropdowns 0 = Some mt /\
    (matched mt = group 1 (groups mt) ++ group 2 (groups mt) ++ group 3 (groups mt)
     /\ two_dropdowns
        = firstn (index mt) two_dropdowns ++ matched mt
          ++ skipn (index mt + length (matched mt)) two_dropdowns
     /\ patch two_dropdowns [MkMonitor (js "a") (js "b")]
        = firstn (index mt) two_dropdowns ++ group 1 (groups mt)
          ++ allOptions [MkMonitor (js "a") (js "b")]
          ++ group 3 (groups mt)
          ++ skipn (index mt + length (matched mt)) two_dropdowns).
Proof.
  eexists. split; [vm_compute; reflexivity|].
  apply patch_writes_block; vm_compute; reflexivity.
Defined.

(** X5. [matchAll] lists its matches in text order: each match starts
    after the start of the one before and at or after its end, and every
    match lies inside the text. *)
Theorem matchAll_in_order r s :
  StronglySorted follows (matchAll r s)
  /\ Forall (fun m => index m + length (matched m) <= length s) (matchAll r s).
Proof.
  split; [apply matchAll_from_follows|].
  apply Forall_forall. intros m Hin. apply matchAll_from_sound in Hin.
  destruct Hin as (j & n & c & Hi & Hj & _ & Hm & _). cbn in Hi. subst j.
  rewrite Hm, length_firstn, length_skipn. lia.
Qed.

(** ** Reading the patched template back *)

Lemma search_patched t m ms mt w g2 g3 :
  forallb tame_monitor (m :: ms) = true ->
  search optionsRegex t 0 = Some mt ->
  forallb cls_space w = true -> terminator g3 ->
  matched mt = (js "options:" ++ w ++ [LF]) ++ g2 ++ g3 ->
  groups mt = [(1, js "options:" ++ w ++ [LF]); (2, g2); (3, g3)] ->
  patch t (m :: ms)
  = firstn (index mt) t ++ (js "options:" ++ w ++ [LF]) ++ allOptions (m :: ms) ++ g3
    ++ skipn (index mt + length (matched mt)) t
  /\ search optionsRegex (patch t (m :: ms)) 0
     = Some (MkMatch (index mt)
               ((js "options:" ++ w ++ [LF]) ++ allOptions (m :: ms) ++ g3)
               [(1, js "options:" ++ w ++ [LF]); (2, allOptions (m :: ms)); (3, g3)]).
Proof.
  intros Htame Hs Hw Ht Hm Hg. set (mons := m :: ms) in *.
  destruct (@search_options t mt Hs) as (_ & _ & _ & _ & _ & _ & _ & Hk & Hj).
  destruct (@patch_found t mons mt w g2 g3 Hs Hg) as (X & HX & HXA).
  rewrite (HXA (allOptions_no_DOLLAR _ Htame)) in HX. clear X HXA.
  split; [exact HX|].
  pose proof (@search_split optionsRegex t mt Hs) as Et.
  assert (Hpre : length (firstn (index mt) t) = index mt)
    by (rewrite length_firstn; lia).
  remember (firstn (index mt) t) as pre eqn:Ep in *.
  remember (skipn (index mt + length (matched mt)) t) as suf eqn:Esuf in *.
  clear Ep Esuf. rewrite Hm, <- !app_assoc in Et.
  set (g1 := js "options:" ++ w ++ [LF]) in *.
  set (A := allOptions mons) in *.
  assert (HA : indented A).
  { apply indented_tail with (c := LF). now apply allOptions_indented. }
  pose proof (@hd_options_region w A g3 suf Hw Ht HA (allOptions_start m ms)) as Hh.
  fold g1 in Hh. rewrite HX.
  rewrite (@search_intro optionsRegex (pre ++ g1 ++ A ++ g3 ++ suf) 0 (length pre)
             (length (g1 ++ A ++ g3)) [(1, g1); (2, A); (3, g3)]).
  - rewrite skipn_app_length. cbn [Nat.add]. rewrite Hpre. do 2 f_equal.
    rewrite !app_assoc. apply firstn_app_length.
  - apply no_earlier with (g2 := g2); try assumption.
    intros j Hlt. rewrite <- !app_assoc. fold g1. rewrite <- Et. apply Hj. lia.
  - rewrite length_app. lia.
  - rewrite skipn_app_length. exact Hh.
Qed.

(** X8. After a patch with a non-empty collection of tame monitors, the
    options pattern matches the new text at the same offset, with the same
    group 1 and group 3, and its group 2 is exactly the rendered block. *)
Theorem patched_region_reads_back t m ms mt :
  forallb tame_monitor (m :: ms) = true ->
  search optionsRegex t 0 = Some mt ->
  exists mt',
    search optionsRegex (patch t (m :: ms)) 0 = Some mt'
    /\ index mt' = index mt
    /\ group 1 (groups mt') = group 1 (groups mt)
    /\ group 2 (groups mt') = allOptions (m :: ms)
    /\ group 3 (groups mt') = group 3 (groups mt).
Proof.
  intros Htame Hs.
  destruct (@search_options t mt Hs) as (w & g2 & g3 & Hw & Ht & Hm & Hg & _).
  destruct (@search_patched t m ms mt w g2 g3 Htame Hs Hw Ht Hm Hg) as [_ Hs'].
  eexists. split; [exact Hs'|]. rewrite Hg. cbn. repeat split.
Qed.

Lemma patched_region_reads_back_witness :
  exists mt, search optionsRegex two_dropdowns 0 = Some mt /\
  exists mt',
    search optionsRegex (patch two_dropdowns [MkMonitor (js "a") (js "b")]) 0 = Some mt'
    /\ index mt' = index mt
    /\ group 1 (groups mt') = group 1 (groups mt)
    /\ group 2 (groups mt') = allOptions [MkMonitor (js "a") (js "b")]
    /\ group 3 (groups mt') = group 3 (groups mt).
Proof.
  eexists. split; [vm_compute; reflexivity|].
  apply patched_region_reads_back; vm_compute; reflexivity.
Defined.

(** Patching what a patch wrote changes nothing. *)
Lemma patch_stable t m ms :
  forallb tame_monitor (m :: ms) = true ->
  patch (patch t (m :: ms)) (m :: ms) = patch t (m :: ms).
Proof.
  intros Htame.
  destruct (search optionsRegex t 0) as [mt|] eqn:Hs.
  2:{ assert (E : patch t (m :: ms) = t) by (unfold patch, replace; now rewrite Hs).
      now rewrite !E. }
  destruct (@search_options t mt Hs) as (w & g2 & g3 & Hw & Ht & Hm & Hg & Hk & _).
  destruct (@search_patched t m ms mt w g2 g3 Htame Hs Hw Ht Hm Hg) as [HX Hs'].
  destruct (@patch_found _ (m :: ms) _ w (allOptions (m :: ms)) g3 Hs' eq_refl)
    as (X & HX' & HXA).
  rewrite (HXA (allOptions_no_DOLLAR _ Htame)) in HX'. clear X HXA.
  cbn [index matched] in HX'. rewrite HX'.
  assert (Hpre : length (firstn (index mt) t) = index mt)
    by (rewrite length_firstn; lia).
  remember (firstn (index mt) t) as pre eqn:Ep in *.
  remember (skipn (index mt + length (matched mt)) t) as suf eqn:Esuf in *.
  clear Ep Esuf. rewrite HX, <- Hpre.
  set (g1 := js "options:" ++ w ++ [LF]). set (A := allOptions (m :: ms)).
  assert (Hsk : skipn (length (g1 ++ A ++ g3)) (g1 ++ A ++ g3 ++ suf) = suf).
  { replace (g1 ++ A ++ g3 ++ suf) with ((g1 ++ A ++ g3) ++ suf)
      by (now rewrite <- !app_assoc).
    apply skipn_app_length. }
  now rewrite firstn_app_length, skipn_add, skipn_app_length, Hsk.
Qed.

(** ** Running the pipeline *)

(** X9. When a run of the pipeline ends with status 0 and the extracted
    monitors are tame, a second run on the files it left ends with status 0
    too and leaves the same template and the same configuration: it writes
    the same content a second time. *)
Theorem rerun_stable st :
  forallb tame_monitor (extractMonitorIds st) = true ->
  fst (main st) = 0%Z ->
  fst (main (snd (main st))) = 0%Z
  /\ template_file (snd (main (snd (main st)))) = template_file (snd (main st))
  /\ config_file (snd (main (snd (main st)))) = config_file st
  /\ exists content,
       written (snd (main (snd (main st)))) = content :: content :: written st.
Proof.
  intros Htame H0.
  destruct (main_cases st) as [E | (Hne & t & Et & Ew & E)];
    rewrite E in *; cbn [fst snd] in *; [discriminate|].
  set (ms := extractMonitorIds st) in *.
  set (st' := MkFs (config_file st) (File (patch t ms)) true (patch t ms :: written st)).
  assert (Hms : extractMonitorIds st' = ms) by reflexivity.
  destruct ms as [|m ms0] eqn:Ems; [contradiction|].
  destruct (main_cases st') as [E' | (_ & t' & Et' & _ & E')].
  - exfalso. unfold main in E'. rewrite Hms in E'. cbn in E'. discriminate.
  - rewrite Hms in E'. cbn in Et'. injection Et' as <-.
    rewrite patch_stable in E' by assumption.
    rewrite E'. cbn [fst snd template_file config_file written].
    split; [reflexivity | split; [reflexivity | split; [reflexivity|]]].
    eexists. reflexivity.
Qed.

Lemma rerun_stable_witness :
  let st := MkFs (File small_config) (File two_dropdowns) true [] in
  fst (main (snd (main st))) = 0%Z
  /\ template_file (snd (main (snd (main st)))) = template_file (snd (main st))
  /\ config_file (snd (main (snd (main st)))) = config_file st
  /\ exists content,
       written (snd (main (snd (main st)))) = content :: content :: written st.
Proof.
  intros st. apply rerun_stable; vm_compute; reflexivity.
Defined.

(** X10. On a configuration that declares simple monitors after a quiet
    prefix, with a readable and writable template, the Extractor returns
    the declared monitors; the pipeline ends with status 1 and no write when
    none is declared, and with status 0 and the template patched with the
    declared monitors otherwise. *)
Theorem pipeline_on_declared st pre mons rest t :
  config_file st = File (config_of pre mons rest) ->
  quiet pre = true -> forallb simple_monitor mons = true ->
  template_file st = File t -> template_writable st = true ->
  extractMonitorIds st = mons
  /\ (mons = [] -> main st = (1%Z, st))
  /\ (mons <> [] ->
      main st = (0%Z, MkFs (config_file st) (File (patch t mons)) true
                           (patch t mons :: written st))).
Proof.
  intros Hc Hq Hs Ht Hw.
  assert (Hx : extractMonitorIds st = mons).
  { unfold extractMonitorIds, extractMonitorIds_body. rewrite Hc. cbn.
    now apply declared_monitors_extracted. }
  split; [exact Hx|]. unfold main. rewrite Hx. split.
  - intros ->. reflexivity.
  - intros Hne. destruct mons as [|m ms]; [contradiction|]. cbn [length Nat.eqb].
    unfold updateIssueTemplate, writeFileSync. rewrite Ht, Hw. reflexivity.
Qed.

Lemma pipeline_on_declared_witness :
  let mons := [MkMonitor (js "a") (js "A"); MkMonitor (js "b") (js "B")] in
  let st := MkFs (File (config_of (js "const c = { ") mons (js " }")))
                 (File two_dropdowns) true [] in
  extractMonitorIds st = mons
  /\ (mons = [] -> main st = (1%Z, st))
  /\ (mons <> [] ->
      main st = (0%Z, MkFs (config_file st) (File (patch two_dropdowns mons)) true
                           (patch two_dropdowns mons :: written st))).
Proof.
  intros mons st.
  apply (@pipeline_on_declared st (js "const c = { ") mons (js " }") two_dropdowns);
    reflexivity.
Defined.

(** ** Records and monitors *)

Lemma split_at_quote a : forall b x y q,
  no_quote a = true -> no_quote b = true -> cls_quote q = true ->
  a ++ q :: x = b ++ q :: y -> a = b /\ x = y.
Proof.
  induction a as [|c a IH]; intros b x y q Ha Hb Hq E.
  - destruct b as [|d b]; [cbn in E; injection E as ->; now split|].
    cbn in E. injection E as -> _. cbn [no_quote forallb] in Hb.
    apply andb_true_iff in Hb as [Hd _]. unfold cls_not_quote in Hd.
    rewrite Hq in Hd. discriminate.
  - cbn [no_quote forallb] in Ha. apply andb_true_iff in Ha as [Hc Ha].
    destruct b as [|d b].
    + cbn in E. injection E as -> _. unfold cls_not_quote in Hc.
      rewrite Hq in Hc. discriminate.
    + cbn [no_quote forallb] in Hb. apply andb_true_iff in Hb as [_ Hb].
      cbn [app] in E. injection E as -> E.
      destruct (IH b x y q Ha Hb Hq E) as [-> ->]. now split.
Qed.

(** X11. Monitors whose ids and names hold no quote character (as every
    extracted monitor does) render to different option records unless they
    are the same monitor. *)
Theorem render_option_injective m1 m2 :
  no_quote (id m1) = true -> no_quote (name m1) = true ->
  no_quote (id m2) = true -> no_quote (name m2) = true ->
  render_option m1 = render_option m2 -> m1 = m2.
Proof.
  intros Hi1 Hn1 Hi2 Hn2 E. unfold render_option in E.
  apply app_inv_head in E.
  assert (Hl : forall i n, no_quote i = true -> no_quote n = true ->
                           no_quote (i ++ js " - " ++ n) = true).
  { intros i n Hi Hn. unfold no_quote. rewrite !forallb_app.
    fold (no_quote i) (no_quote n). now rewrite Hi, Hn. }
  rewrite !(app_assoc (id _)), !(app_assoc (id _ ++ _)) in E.
  rewrite <- !(app_assoc (id _) (js " - ")) in E.
  change (js "'" ++ [LF] ++ js "          value: '" ++ ?i ++ js "'")
    with (QUOTE :: [LF] ++ js "          value: '" ++ i ++ js "'") in E.
  cbn [app] in E.
  apply split_at_quote in E; [|now apply Hl | now apply Hl | reflexivity].
  destruct E as [El Er]. injection Er as Er. apply app_inv_tail in Er.
  destruct m1 as [i1 n1], m2 as [i2 n2]. cbn [id name] in *. subst i2.
  do 2 apply app_inv_head in El. now subst.
Qed.

Lemma render_option_injective_witness :
  MkMonitor (js "a") (js "b") = MkMonitor (js "a") (js "b").
Proof.
  apply render_option_injective; reflexivity.
Defined.

(** ** Ids and names as replacement patterns *)

Section Expansion.

Variables (matched before after : str) (caps : captures) (m : nat).

Local Abbreviation GS := (GetSubstitution matched before after caps m).

(** After a plain code unit the expansion starts afresh. *)
Lemma GS_split_plain b T :
  plain b ->
  forall n A, length A <= n -> GS (A ++ b :: T) = GS (A ++ [b]) ++ GS T.
Proof.
  intros (Hb1 & Hb2 & Hb3 & Hb4 & Hb5).
  assert (Hb : GS (b :: T) = b :: GS T) by (cbn [GetSubstitution]; unfold DOLLAR; now rewrite Hb1).
  assert (Hb' : GS [b] = [b]) by (cbn [GetSubstitution]; unfold DOLLAR; now rewrite Hb1).
  induction n as [|n IH]; intros A Hlen.
  { destruct A; [cbn [app]; now rewrite Hb, Hb' | simpl in Hlen; lia]. }
  destruct A as [|c A1]; [cbn [app]; now rewrite Hb, Hb'|]. simpl in Hlen.
  assert (H1 : GS (A1 ++ b :: T) = GS (A1 ++ [b]) ++ GS T) by (apply IH; lia).
  cbn [app GetSubstitution].
  destruct (N.eqb c DOLLAR); [|now rewrite H1].
  destruct A1 as [|c1 A2].
  { cbn [app]. rewrite Hb1, Hb2, Hb3, Hb4, Hb5. now rewrite Hb, Hb'. }
  simpl in Hlen.
  assert (H2 : GS (A2 ++ b :: T) = GS (A2 ++ [b]) ++ GS T) by (apply IH; lia).
  cbn [app].
  destruct (N.eqb c1 36); [now rewrite H2|].
  destruct (N.eqb c1 96); [now rewrite H2, app_assoc|].
  destruct (N.eqb c1 38); [now rewrite H2, app_assoc|].
  destruct (N.eqb c1 39); [now rewrite H2, app_assoc|].
  destruct (digit_val c1) as [d1|]; [|cbn [app] in H1; now rewrite H1].
  assert (Hone :
    (if (1 <=? d1) && (d1 <=? m)
     then group d1 caps ++ GS (A2 ++ b :: T)
     else c :: c1 :: GS (A2 ++ b :: T))
    = (if (1 <=? d1) && (d1 <=? m)
       then group d1 caps ++ GS (A2 ++ [b])
       else c :: c1 :: GS (A2 ++ [b])) ++ GS T).
  { rewrite H2. destruct ((1 <=? d1) && (d1 <=? m)); [now rewrite app_assoc | reflexivity]. }
  destruct A2 as [|c2 A3].
  { cbn [app] in *. rewrite Hb5. exact Hone. }
  cbn [app] in *. simpl in Hlen.
  assert (H3 : GS (A3 ++ b :: T) = GS (A3 ++ [b]) ++ GS T) by (apply IH; lia).
  destruct (digit_val c2) as [d2|]; [|exact Hone].
  destruct (m <? 10 * d1 + d2); [exact Hone|].
  destruct (1 <=? 10 * d1 + d2); [now rewrite H3, app_assoc|].
  now rewrite H3.
Qed.

End Expansion.

(** X12. Whatever the monitors hold, the patched text is the text before
    the match, group 1, the rendered block expanded as a replacement
    pattern ([$$], [$&], [$1] and the like inside ids and names are
    substituted), group 3 and the text after the match. *)
Theorem patch_expands_block t ms mt :
  search optionsRegex t 0 = Some mt ->
  patch t ms
  = firstn (index mt) t ++ group 1 (groups mt)
    ++ GetSubstitution (matched mt) (firstn (index mt) t)
         (skipn (index mt + length (matched mt)) t) (groups mt) 3 (allOptions ms)
    ++ group 3 (groups mt) ++ skipn (index mt + length (matched mt)) t.
Proof.
  intros Hs.
  destruct (@search_options t mt Hs) as (w & g2 & g3 & _ & _ & _ & Hg & _).
  unfold patch, replace. rewrite Hs. cbv zeta.
  change (ngroups optionsRegex) with 3.
  set (before := firstn (index mt) t).
  set (after := skipn (index mt + length (matched mt)) t).
  f_equal.
  assert (Hin : GetSubstitution (matched mt) before after (groups mt) 3 (replacement ms)
                = group 1 (groups mt)
                  ++ GetSubstitution (matched mt) before after (groups mt) 3 (allOptions ms)
                  ++ group 3 (groups mt)).
  2:{ rewrite Hin. now rewrite <- !app_assoc. }
  rewrite Hg. cbn [group Nat.eqb]. set (g1 := js "options:" ++ w ++ [LF]).
  set (caps := [(1, g1); (2, g2); (3, g3)]).
  assert (Htail : GetSubstitution (matched mt) before after caps 3 (allOptions ms ++ js "$3")
                  = GetSubstitution (matched mt) before after caps 3 (allOptions ms) ++ g3).
  { unfold allOptions.
    set (A0 := monitorOptions ms ++ [LF] ++ js "        - label: 'All monitors'"
               ++ [LF] ++ js "          value: '").
    replace ((monitorOptions ms ++ [LF] ++ all_monitors_option) ++ js "$3")
      with (A0 ++ 97%N :: js "ll'$3")
      by (unfold A0, all_monitors_option; now rewrite <- !app_assoc).
    replace (monitorOptions ms ++ [LF] ++ all_monitors_option)
      with (A0 ++ 97%N :: js "ll'")
      by (unfold A0, all_monitors_option; now rewrite <- !app_assoc).
    rewrite (@GS_split_plain (matched mt) before after caps 3 97%N (js "ll'$3")
               ltac:(repeat split) (length A0) A0 (Nat.le_refl _)).
    rewrite (@GS_split_plain (matched mt) before after caps 3 97%N (js "ll'")
               ltac:(repeat split) (length A0) A0 (Nat.le_refl _)).
    rewrite <- app_assoc. f_equal. cbn. now rewrite app_nil_r. }
  rewrite <- Htail. unfold replacement.
  destruct (allOptions_head ms) as (c & t' & -> & Hc).
  destruct Hc as [-> | ->]; reflexivity.
Qed.

Lemma patch_expands_block_witness :
  exists mt, search optionsRegex blank_line_template 0 = Some mt /\
    patch blank_line_template [MkMonitor (js "a$$") (js "$2")]
    = firstn (index mt) blank_line_template ++ group 1 (groups mt)
      ++ GetSubstitution (matched mt) (firstn (index mt) blank_line_template)
           (skipn (index mt + length (matched mt)) blank_line_template) (groups mt) 3
           (allOptions [MkMonitor (js "a$$") (js "$2")])
      ++ group 3 (groups mt)
      ++ skipn (index mt + length (matched mt)) blank_line_template.
Proof.
  eexists. split; [vm_compute; reflexivity|].
  apply patch_expands_block. vm_compute. reflexivity.
Defined.
